(** * Duplicate-enrollment removal: overlap predicate, clustering, resolver

    Shallow embedding of the three core methods of
    [core/management/commands/remove_duplicacy.py]
    ([ranges_overlap_or_adjacent], [find_overlapping_groups],
    [select_best_enrollment]) together with [remove_duplicate_group] and
    the dry run of the driver [handle], and of the overlap predicate and
    [check_enrollments_overlap] of
    [core/management/commands/list_multiple_enrollments.py].

    Modelling choices:
    - a date is its day ordinal ([date.toordinal()]) and a timestamp a tick
      count, both in [Z]; the last date Python has, 9999-12-31, is
      [date_max], and [end + timedelta(days=1)] raises [OverflowError]
      there;
    - a field that may hold [None] is an [option]; ordering a date against
      [None] raises [TypeError], as in Python 3;
    - [timezone.now()] is a clock, a sequence of readings: the sort key
      [e.created_at or timezone.now()] reads it once for every record
      without [created_at], in list order, before the sort compares
      anything;
    - the calendar date [timezone.now().date()] is the parameter [today]: it
      is taken not to change while a call runs;
    - the [processed] set of ids is a [gset Z];
    - the list objects that [select_best_enrollment] may sort in place live
      in a two-cell store, so that the aliasing of [candidates] with the
      caller's list is visible in the result;
    - [enrollment.delete()] and the client status update are collaborators
      outside the code: their outcomes are parameters of
      [remove_duplicate_group];
    - the driver reads the table as a list of rows in the order the query
      set yields them.

    The file has two parts: the embedding (with the predicates used to
    state the results and the sample records), then the lemmas and the
    theorems C1 to C10, followed by the further results. *)

From stdpp Require Import base decidable option list gmap strings sorting.
From Stdlib Require Import ZArith Lia.

Local Open Scope Z_scope.
#[local] Set Warnings "-clear-no-such-hyp".

(** ** Python outcomes *)

(** The exceptions the modelled code can raise. *)
Inductive exn : Type :=
  | TypeError      (* ordering comparison between a date and None *)
  | IndexError     (* [candidates[0]] on an empty list *)
  | OverflowError. (* [date + timedelta] past the last date *)

(** An outcome of a call: a value, a raised exception, or (for the [while]
    loop, which is run on a step budget) an exhausted budget. *)
Inductive result (A : Type) : Type :=
  | Ok (a : A)
  | Raise (e : exn)
  | OutOfFuel.
Arguments Ok {A} a.
Arguments Raise {A} e.
Arguments OutOfFuel {A}.

#[global] Instance result_ret : MRet result := fun A a => Ok a.
#[global] Instance result_bind : MBind result := fun A B f m =>
  match m with
  | Ok a => f a
  | Raise e => Raise e
  | OutOfFuel => OutOfFuel
  end.

#[global] Instance exn_eq_dec : EqDecision exn.
Proof. solve_decision. Defined.
#[global] Instance result_eq_dec `{EqDecision A} : EqDecision (result A).
Proof. solve_decision. Defined.

(** ** Data model *)

(** The attributes of a [ClientProgramEnrollment] row that the three methods
    read. *)
Record Enrollment : Type := mkEnrollment {
  id : Z;
  start_date : option Z;
  end_date : option Z;
  is_archived : bool;
  created_at : option Z;
  notes : option string;
  receiving_services_date : option Z;
  status : option string;
  sub_program : option Z
}.

#[global] Instance Enrollment_eq_dec : EqDecision Enrollment.
Proof. solve_decision. Defined.

(** Python truthiness of an optional string: [None] and [''] are falsy. *)
Definition truthy_str (s : option string) : bool :=
  match s with
  | None | Some EmptyString => false
  | Some (String _ _) => true
  end.

(** Python truthiness of an optional date, timestamp or reference: only
    [None] is falsy. *)
Definition truthy {A} (o : option A) : bool :=
  match o with None => false | Some _ => true end.

(** ** Date comparisons *)

(** [a >= b] on dates: ordering against [None] raises [TypeError]. *)
Definition date_ge (a b : option Z) : result bool :=
  match a, b with
  | Some x, Some y => Ok (y <=? x)
  | _, _ => Raise TypeError
  end.

(** [a <= b] on dates. *)
Definition date_le (a b : option Z) : result bool :=
  match a, b with
  | Some x, Some y => Ok (x <=? y)
  | _, _ => Raise TypeError
  end.

(** [a == b]: equality never raises, and a date differs from [None]. *)
Definition date_eqb (a b : option Z) : bool :=
  match a, b with
  | Some x, Some y => x =? y
  | None, None => true
  | _, _ => false
  end.

(** [date.max.toordinal()]: the ordinal of 9999-12-31, the last date. *)
Definition date_max : Z := 3652059.

(** [d + timedelta(days=1)]: the day after [d]; there is none after the
    last date, and the addition raises [OverflowError]. *)
Definition next_day (d : Z) : result Z :=
  if date_max <=? d then Raise OverflowError else Ok (d + 1).

(** ** IntervalOverlap *)

Module RemoveDuplicacy.

(** [Command.ranges_overlap_or_adjacent] of remove_duplicacy.py.  In the
    branches where an end date is tested for truthiness ([end2 and ...]) it
    is known not to be [None], and a date is always truthy, so the
    conjunction is its right operand.  With two end dates, [overlap] is
    computed first and then [adjacent], whatever [overlap] is: its first
    disjunct adds a day to [end1], and only if that is not [start2] does
    the second one add a day to [end2]. *)
Definition ranges_overlap_or_adjacent
    (start1 end1 start2 end2 : option Z) : result bool :=
  match end1, end2 with
  | None, None => Ok true
  | None, Some e2 =>
      b ← date_ge start2 start1;
      if b : bool then Ok true else date_ge (Some e2) start1
  | Some e1, None =>
      b ← date_ge start1 start2;
      if b : bool then Ok true else date_ge (Some e1) start2
  | Some e1, Some e2 =>
      o1 ← date_le start1 (Some e2);
      overlap ← (if o1 : bool then date_le start2 (Some e1) else Ok false);
      after1 ← next_day e1;
      adjacent ←
        (if date_eqb (Some after1) start2 then Ok true
         else after2 ← next_day e2; Ok (date_eqb (Some after2) start1));
      Ok (overlap || adjacent)
  end.

End RemoveDuplicacy.

Module ListMultipleEnrollments.

(** [Command.ranges_overlap_or_adjacent] of list_multiple_enrollments.py,
    a textual copy of the one above. *)
Definition ranges_overlap_or_adjacent
    (start1 end1 start2 end2 : option Z) : result bool :=
  match end1, end2 with
  | None, None => Ok true
  | None, Some e2 =>
      b ← date_ge start2 start1;
      if b : bool then Ok true else date_ge (Some e2) start1
  | Some e1, None =>
      b ← date_ge start1 start2;
      if b : bool then Ok true else date_ge (Some e1) start2
  | Some e1, Some e2 =>
      o1 ← date_le start1 (Some e2);
      overlap ← (if o1 : bool then date_le start2 (Some e1) else Ok false);
      after1 ← next_day e1;
      adjacent ←
        (if date_eqb (Some after1) start2 then Ok true
         else after2 ← next_day e2; Ok (date_eqb (Some after2) start1));
      Ok (overlap || adjacent)
  end.

End ListMultipleEnrollments.

Import RemoveDuplicacy.

(** ** Loops and sorting *)

(** A [for] loop whose body may raise: the state is threaded through the
    elements in order and the first exception ends the loop. *)
Fixpoint for_each {A S : Type} (body : A → S → result S) (l : list A) (s : S)
    : result S :=
  match l with
  | [] => Ok s
  | x :: t => s' ← body x s; for_each body t s'
  end.

(** Python's [sorted(l, key=key)] and [l.sort(key=key)] are stable: records
    with equal keys keep their relative order.  Stable insertion gives the
    one stable sorted arrangement: an element goes in front of the first
    element whose key is not smaller. *)
Fixpoint insert_by {A : Type} (key : A → Z) (x : A) (l : list A) : list A :=
  match l with
  | [] => [x]
  | y :: t => if key x <=? key y then x :: y :: t else y :: insert_by key x t
  end.

Definition sorted_by {A : Type} (key : A → Z) (l : list A) : list A :=
  foldr (insert_by key) [] l.

(** [l.sort(key=key, reverse=True)]: descending, and still stable (records
    with equal keys keep their original order), which is the stable
    ascending sort on the negated key. *)
Definition sorted_by_desc {A : Type} (key : A → Z) (l : list A) : list A :=
  sorted_by (λ x, - key x) l.

(** Order of two elements by an integer key. *)
Definition key_le {A : Type} (key : A → Z) (a b : A) : Prop := key a <= key b.

Section Clock.

(** [timezone.now().date()], the same for the duration of a call, and the
    successive readings of [timezone.now()] during the call. *)
Variable today : Z.
Variable clock : nat → Z.

(** ** OverlapClusterer *)

(** [lambda e: (e.start_date or timezone.now().date())] *)
Definition start_key (e : Enrollment) : Z := default today (start_date e).

(** The innermost loop of [find_overlapping_groups]: does [other] overlap
    some member of [group]?  Members are tried in order and the loop breaks
    at the first hit. *)
Fixpoint overlaps_any (group : list Enrollment) (other : Enrollment)
    : result bool :=
  match group with
  | [] => Ok false
  | group_member :: rest =>
      b ← ranges_overlap_or_adjacent
            (start_date group_member) (end_date group_member)
            (start_date other) (end_date other);
      if b : bool then Ok true else overlaps_any rest other
  end.

(** Body of [for other in sorted_enrollments] on the state
    [(group, processed, changed)]. *)
Definition absorb_step (other : Enrollment)
    (st : list Enrollment * gset Z * bool)
    : result (list Enrollment * gset Z * bool) :=
  let '(group, processed, changed) := st in
  if decide (id other ∈ processed) then Ok st
  else
    b ← overlaps_any group other;
    if b : bool then Ok (group ++ [other], {[id other]} ∪ processed, true)
    else Ok st.

(** One execution of the body of [while changed]. *)
Definition absorb_pass (sorted_enrollments : list Enrollment)
    (group : list Enrollment) (processed : gset Z)
    : result (list Enrollment * gset Z * bool) :=
  for_each absorb_step sorted_enrollments (group, processed, false).

(** [while changed: ...], on a budget of passes. *)
Fixpoint absorb_loop (fuel : nat) (sorted_enrollments : list Enrollment)
    (group : list Enrollment) (processed : gset Z)
    : result (list Enrollment * gset Z) :=
  match fuel with
  | O => OutOfFuel
  | S fuel' =>
      '(group', processed', changed) ←
        absorb_pass sorted_enrollments group processed;
      if changed : bool
      then absorb_loop fuel' sorted_enrollments group' processed'
      else Ok (group', processed')
  end.

(** Body of [for enrollment in sorted_enrollments] on the state
    [(groups, processed)].  A pass that changes something marks a record of
    [sorted_enrollments] as processed, so one pass more than its length is
    budget enough. *)
Definition group_step (sorted_enrollments : list Enrollment)
    (enrollment : Enrollment) (st : list (list Enrollment) * gset Z)
    : result (list (list Enrollment) * gset Z) :=
  let '(groups, processed) := st in
  if decide (id enrollment ∈ processed) then Ok st
  else
    '(group, processed') ←
      absorb_loop (S (length sorted_enrollments)) sorted_enrollments
        [enrollment] ({[id enrollment]} ∪ processed);
    if (1 <? length group)%nat then Ok (groups ++ [group], processed')
    else Ok (groups, processed').

(** [Command.find_overlapping_groups] *)
Definition find_overlapping_groups (enrollments : list Enrollment)
    : result (list (list Enrollment)) :=
  match enrollments with
  | [] => Ok []
  | _ =>
      let sorted_enrollments := sorted_by start_key enrollments in
      '(groups, _) ←
        for_each (group_step sorted_enrollments) sorted_enrollments ([], ∅);
      Ok groups
  end.

(** ** DuplicateResolver *)

(** The keys that [list.sort] computes with
    [key=lambda e: e.created_at or timezone.now()]: one for each record, in
    list order, before anything is compared.  The clock is read for a
    record without [created_at] only; [reads] counts the readings made so
    far. *)
Fixpoint created_keys (reads : nat) (l : list Enrollment)
    : list (Z * Enrollment) :=
  match l with
  | [] => []
  | e :: rest =>
      match created_at e with
      | Some t => (t, e) :: created_keys reads rest
      | None => (clock reads, e) :: created_keys (S reads) rest
      end
  end.

(** [l.sort(key=lambda e: e.created_at or timezone.now(), reverse=True)]:
    the records in descending order of these keys. *)
Definition sorted_by_created_desc (l : list Enrollment) : list Enrollment :=
  snd <$> sorted_by_desc fst (created_keys 0 l).

(** The nested function [completeness_score]. *)
Definition completeness_score (enrollment : Enrollment) : Z :=
  (if truthy_str (notes enrollment) then 10 else 0)
  + (if truthy (receiving_services_date enrollment) then 5 else 0)
  + (if truthy_str (status enrollment)
        && negb (bool_decide (status enrollment = Some "pending"%string))
     then 3 else 0)
  + (if truthy (sub_program enrollment) then 2 else 0).

(** The two list objects [select_best_enrollment] can sort in place: the
    caller's list, and the list built by the [non_archived] comprehension.
    The name [candidates] is bound to one of them. *)
Inductive list_ref : Type := ref_enrollments | ref_non_archived.

Record store : Type := mkStore {
  obj_enrollments : list Enrollment;
  obj_non_archived : list Enrollment
}.

Definition deref (r : list_ref) (σ : store) : list Enrollment :=
  match r with
  | ref_enrollments => obj_enrollments σ
  | ref_non_archived => obj_non_archived σ
  end.

(** [r.sort(key=lambda e: e.created_at or timezone.now(), reverse=True)]
    on the object [r] names. *)
Definition sort_desc_in_place (r : list_ref) (σ : store) : store :=
  match r with
  | ref_enrollments =>
      mkStore (sorted_by_created_desc (obj_enrollments σ)) (obj_non_archived σ)
  | ref_non_archived =>
      mkStore (obj_enrollments σ) (sorted_by_created_desc (obj_non_archived σ))
  end.

(** Body of the [for candidate in candidates] loop of priority 3, on the
    state [(most_recent, best_score)]. *)
Definition best_step (st : Enrollment * Z) (candidate : Enrollment)
    : Enrollment * Z :=
  let '(most_recent, best_score) := st in
  if date_eqb (created_at candidate) (created_at most_recent) then
    let score := completeness_score candidate in
    if best_score <? score then (candidate, score) else st
  else st.

(** [Command.select_best_enrollment].  The second component is what the
    caller's list holds when the call ends. *)
Definition select_best_enrollment (enrollments : list Enrollment)
    : result Enrollment * list Enrollment :=
  match enrollments with
  | [only] => (Ok only, enrollments)
  | _ =>
      let non_archived := filter (λ e, is_archived e = false) enrollments in
      let σ0 := mkStore enrollments non_archived in
      let candidates :=
        match non_archived with
        | [] => ref_enrollments
        | _ => ref_non_archived
        end in
      let σ1 := sort_desc_in_place candidates σ0 in
      match deref candidates σ1 with
      | [] => (Raise IndexError, obj_enrollments σ1)
      | most_recent0 :: _ =>
          let '(most_recent, best_score) :=
            foldl best_step (most_recent0, completeness_score most_recent0)
              (deref candidates σ1) in
          let same_completeness :=
            filter (λ e, date_eqb (created_at e) (created_at most_recent) = true
                         ∧ completeness_score e = best_score)
              (deref candidates σ1) in
          match sorted_by start_key same_completeness with
          | [] => (Ok most_recent, obj_enrollments σ1)
          | first :: _ => (Ok first, obj_enrollments σ1)
          end
      end
  end.

(** What [Command.remove_duplicate_group] returns with [dry_run=True]. *)
Record removal : Type := mkRemoval {
  kept_id : Z;
  removed_count : nat;
  removed_ids : list Z;
  total_duplicates : nat;
  status_updated : bool
}.

(** [Command.remove_duplicate_group(group, dry_run=True)]: [None] for a
    group of at most one record, otherwise the report of what would be
    removed.  (The verbose output is not modelled.) *)
Definition remove_duplicate_group_dry_run (group : list Enrollment)
    : result (option removal) :=
  if (length group <=? 1)%nat then Ok None
  else
    enrollment_to_keep ← (select_best_enrollment group).1;
    let group' := (select_best_enrollment group).2 in
    let enrollments_to_remove :=
      filter (λ e, id e ≠ id enrollment_to_keep) group' in
    Ok (Some (mkRemoval (id enrollment_to_keep)
                (length enrollments_to_remove)
                (id <$> enrollments_to_remove)
                (length group')
                false)).

End Clock.

(** The value the predicate returns, when it returns, on ranges whose start
    dates are present. *)
Definition overlapb (s1 : Z) (e1 : option Z) (s2 : Z) (e2 : option Z) : bool :=
  match e1, e2 with
  | None, None => true
  | None, Some e2 => (s1 <=? s2) || (s1 <=? e2)
  | Some e1, None => (s2 <=? s1) || (s2 <=? e1)
  | Some e1, Some e2 =>
      ((s1 <=? e2) && (s2 <=? e1)) || ((e1 + 1 =? s2) || (e2 + 1 =? s1))
  end.

(** The predicate applied to the ranges of two records, as the clusterer
    calls it. *)
Definition overlap_of (x y : Enrollment) : result bool :=
  ranges_overlap_or_adjacent (start_date x) (end_date x)
                             (start_date y) (end_date y).

(** The two records conflict: the predicate returns [True] on them. *)
Definition ovb (x y : Enrollment) : bool :=
  bool_decide (overlap_of x y = Ok true).

(** The record carries a start date. *)
Definition dated (e : Enrollment) : Prop := is_Some (start_date e).

#[global] Instance dated_dec e : Decision (dated e).
Proof. unfold dated. apply _. Defined.

(** The end date, if any, is before the last date, so that a day can be
    added to it. *)
Definition before_max (e : option Z) : Prop :=
  match e with Some t => t < date_max | None => True end.

Definition below_max (e : Enrollment) : Prop := before_max (end_date e).

#[global] Instance below_max_dec e : Decision (below_max e).
Proof. unfold below_max, before_max. destruct (end_date e); apply _. Defined.

(** Records the predicate can compare in every combination: each has a
    start date and no end date is the last date. *)
Definition comparable (l : list Enrollment) : Prop :=
  Forall dated l ∧ Forall below_max l.

#[global] Instance comparable_dec l : Decision (comparable l).
Proof. unfold comparable. apply _. Defined.

(** The record carries a creation timestamp. *)
Definition stamped (e : Enrollment) : Prop := is_Some (created_at e).

#[global] Instance stamped_dec e : Decision (stamped e).
Proof. unfold stamped. apply _. Defined.


(** A call returns a value that satisfies [Q], or raises an exception that
    [E] allows; it does not exhaust a budget. *)
Definition outcome {A : Type} (E : exn → Prop) (Q : A → Prop) (r : result A)
    : Prop :=
  match r with
  | Ok a => Q a
  | Raise e => E e
  | OutOfFuel => False
  end.

(** The record carries both dates, the start not after the end. *)
Definition closed_range (e : Enrollment) : Prop :=
  ∃ s t, start_date e = Some s ∧ end_date e = Some t ∧ s <= t.

(** The ids of a list of records, as a set. *)
Definition ids (l : list Enrollment) : gset Z := list_to_set (id <$> l).

(** Every record outside [processed] has been compared with every member
    of [group], and the predicate returned [False]. *)
Definition sealed (S : list Enrollment) (group : list Enrollment)
    (processed : gset Z) : Prop :=
  ∀ y m, y ∈ S → id y ∉ processed → m ∈ group → overlap_of m y = Ok false.

(** [group] and [processed] come from [G0] and [P0] by absorbing records of
    [S] that [P0] did not hold, each once, and marking them. *)
Definition grown (S G0 : list Enrollment) (P0 : gset Z)
    (group : list Enrollment) (processed : gset Z) : Prop :=
  ∃ added,
    group = G0 ++ added ∧ processed = ids added ∪ P0
    ∧ (∀ a, a ∈ added → a ∈ S ∧ id a ∉ P0)
    ∧ NoDup (id <$> added).

(** State of the outer loop of the clusterer after the records [pre] of the
    sorted input [S]: every visited record is marked; the groups are
    disjoint sets of marked records of [S], of two or more members; the
    predicate has returned [False] on every marked record against every
    unmarked one; two marked records that conflict share a group; a marked
    record left out of the groups has been compared with every other
    record, in one argument order or the other, and the predicate returned
    [False]. *)
Definition clustered (S pre : list Enrollment)
    (groups : list (list Enrollment)) (P : gset Z) : Prop :=
  (∀ x, x ∈ pre → id x ∈ P)
  ∧ NoDup (id <$> concat groups)
  ∧ (∀ x, x ∈ concat groups → x ∈ S ∧ id x ∈ P)
  ∧ (∀ x y, x ∈ S → y ∈ S → id x ∈ P → id y ∉ P → overlap_of x y = Ok false)
  ∧ (∀ x y, x ∈ S → y ∈ S → id x ∈ P → id y ∈ P → x ≠ y →
       overlap_of x y = Ok true → ∃ g, g ∈ groups ∧ x ∈ g ∧ y ∈ g)
  ∧ (∀ g, g ∈ groups → (2 ≤ length g)%nat)
  ∧ (∀ x y, x ∈ S → y ∈ S → x ≠ y → id x ∈ P → x ∉ concat groups →
       overlap_of x y = Ok false ∨ overlap_of y x = Ok false).

(** The group is in ascending order of start date and no member starts
    after a record still pending. *)
Definition ordered_ahead (today : Z) (S group : list Enrollment)
    (processed : gset Z) : Prop :=
  StronglySorted (key_le (start_key today)) group
  ∧ (∀ m y, m ∈ group → y ∈ S → id y ∉ processed →
       start_key today m <= start_key today y).

(** Number of records of [S] not yet marked processed. *)
Definition pending (S : list Enrollment) (processed : gset Z) : nat :=
  length (filter (λ e, id e ∉ processed) S).

(** Consecutive members are in ascending order of start date. *)
Definition ascending (today : Z) (g : list Enrollment) : Prop :=
  ∀ (i : nat) a b, g !! i = Some a → g !! S i = Some b →
    start_key today a <= start_key today b.


(** ** Sample records

    The three-record scenario of the specification, with January days as
    day ordinals: R1 (archived, Jan 1 to Jan 10), R2 (notes, Jan 5 to
    Jan 20), R3 (Jan 18 to Jan 25). *)
Definition R1 : Enrollment :=
  mkEnrollment 1 (Some 1) (Some 10) true (Some 20230101) None None None None.
Definition R2 : Enrollment :=
  mkEnrollment 2 (Some 5) (Some 20) false (Some 20230601)
    (Some "ok"%string) None None None.
Definition R3 : Enrollment :=
  mkEnrollment 3 (Some 18) (Some 25) false (Some 20230601) None None None None.

(** Four well-formed records, the second one open-ended: Q1 (day 1 to 10),
    Q2 (from day 11), Q3 (day 11 to 15), Q4 (day 13 to 14). *)
Definition Q1 : Enrollment :=
  mkEnrollment 1 (Some 1) (Some 10) false (Some 0) None None None None.
Definition Q2 : Enrollment :=
  mkEnrollment 2 (Some 11) None false (Some 0) None None None None.
Definition Q3 : Enrollment :=
  mkEnrollment 3 (Some 11) (Some 15) false (Some 0) None None None None.
Definition Q4 : Enrollment :=
  mkEnrollment 4 (Some 13) (Some 14) false (Some 0) None None None None.



(** Two archived records, the second created later. *)
Definition Z1 : Enrollment :=
  mkEnrollment 1 (Some 1) (Some 10) true (Some 1) None None None None.
Definition Z2 : Enrollment :=
  mkEnrollment 2 (Some 1) (Some 10) true (Some 2) None None None None.

(** The candidates of the resolver: the non-archived records when there are
    any, otherwise all records. *)
Definition candidates_of (enrollments : list Enrollment) : list Enrollment :=
  match filter (λ e, is_archived e = false) enrollments with
  | [] => enrollments
  | non_archived => non_archived
  end.

(** What the resolver's result [r] satisfies on the cluster [l]: there is a
    candidate [mr], created no earlier than any other candidate when both
    carry a timestamp, such that [r] is a candidate created when [mr] was,
    of greatest score among those, and of least start date among those of
    that score. *)
Definition chosen (today : Z) (l : list Enrollment) (r : Enrollment)
    : Prop :=
  ∃ mr,
    mr ∈ candidates_of l
    ∧ (∀ c tc tm, c ∈ candidates_of l → created_at c = Some tc →
         created_at mr = Some tm → tc <= tm)
    ∧ r ∈ candidates_of l
    ∧ created_at r = created_at mr
    ∧ (∀ c, c ∈ candidates_of l → created_at c = created_at mr →
         completeness_score c <= completeness_score r)
    ∧ (∀ c, c ∈ candidates_of l → created_at c = created_at mr →
         completeness_score c = completeness_score r →
         start_key today r <= start_key today c).


(** ** The rest of the commands

    [Command.check_enrollments_overlap] of list_multiple_enrollments.py and
    the whole of [Command.remove_duplicate_group] of remove_duplicacy.py
    (with [verbose=False]). *)

(** Body of [for e2 in enrollments[i+1:]] on the list [overlapping_pairs]. *)
Definition pair_step (e1 e2 : Enrollment)
    (overlapping_pairs : list (Enrollment * Enrollment))
    : result (list (Enrollment * Enrollment)) :=
  b ← ListMultipleEnrollments.ranges_overlap_or_adjacent
        (start_date e1) (end_date e1) (start_date e2) (end_date e2);
  if b : bool then Ok (overlapping_pairs ++ [(e1, e2)])
  else Ok overlapping_pairs.

(** [for i, e1 in enumerate(enrollments): for e2 in enrollments[i+1:]: ...] *)
Fixpoint overlapping_pairs_from (enrollments : list Enrollment)
    (overlapping_pairs : list (Enrollment * Enrollment))
    : result (list (Enrollment * Enrollment)) :=
  match enrollments with
  | [] => Ok overlapping_pairs
  | e1 :: rest =>
      overlapping_pairs' ← for_each (pair_step e1) rest overlapping_pairs;
      overlapping_pairs_from rest overlapping_pairs'
  end.

(** [Command.check_enrollments_overlap]: the tuple
    [(has_overlap, overlapping_pairs)]. *)
Definition check_enrollments_overlap (enrollments : list Enrollment)
    : result (bool * list (Enrollment * Enrollment)) :=
  if (length enrollments <? 2)%nat then Ok (false, [])
  else
    overlapping_pairs ← overlapping_pairs_from enrollments [];
    Ok ((0 <? length overlapping_pairs)%nat, overlapping_pairs).

Section Removal.

Variable today : Z.
Variable clock : nat → Z.

(** [enrollment.delete()]: whether the deletion of the given record, the
    n-th one attempted during the call (from 0), returns normally. *)
Variable delete_ok : nat → Enrollment → bool.

(** The status recomputation for the client of the kept record
    ([Client.objects.get(...)], [client.update_inactive_status()],
    [client.save(...)]): [None] when it raises, otherwise whether the
    status changed. *)
Variable status_changed : Enrollment → option bool.

(** Body of [for enrollment in enrollments_to_remove] on the state
    [(removed_count, removed_ids)], with the records [delete()] has been
    called on so far; an exception of [delete()] is caught and logged. *)
Definition delete_step (st : nat * list Z * list Enrollment)
    (enrollment : Enrollment) : nat * list Z * list Enrollment :=
  let '(removed_count, removed_ids, attempted) := st in
  if delete_ok (length attempted) enrollment
  then (S removed_count, removed_ids ++ [id enrollment],
        attempted ++ [enrollment])
  else (removed_count, removed_ids, attempted ++ [enrollment]).

(** [Command.remove_duplicate_group(group, dry_run, verbose=False)]: what
    it returns, and the records it called [delete()] on, in order. *)
Definition remove_duplicate_group (group : list Enrollment) (dry_run : bool)
    : result (option removal) * list Enrollment :=
  if (length group <=? 1)%nat then (Ok None, [])
  else
    match select_best_enrollment today clock group with
    | (Ok enrollment_to_keep, group') =>
        let enrollments_to_remove :=
          filter (λ e, id e ≠ id enrollment_to_keep) group' in
        if dry_run then
          (Ok (Some (mkRemoval (id enrollment_to_keep)
                       (length enrollments_to_remove)
                       (id <$> enrollments_to_remove)
                       (length group')
                       false)), [])
        else
          let '(removed_count, removed_ids, attempted) :=
            foldl delete_step (O, [], []) enrollments_to_remove in
          let status_updated :=
            match status_changed enrollment_to_keep with
            | Some true => true
            | _ => false
            end in
          (Ok (Some (mkRemoval (id enrollment_to_keep) removed_count
                       removed_ids (length group') status_updated)),
           attempted)
    | (Raise e, _) => (Raise e, [])
    | (OutOfFuel, _) => (OutOfFuel, [])
    end.

End Removal.

(** ** The driver of remove_duplicacy.py

    [Command.handle] with [dry_run=True], [verbose=False] and
    [stats=False], on the enrollment table as the query set yields it.
    What it writes to the console is left out; what it counts and
    collects for the summary is the result. *)

(** A row of the table: the two foreign keys the driver groups by, and the
    attributes modelled above. *)
Record Row : Type := mkRow {
  client_id : Z;
  program_id : Z;
  enrollment : Enrollment
}.

(** The key of the dictionary [enrollment_groups]. *)
Definition row_key (r : Row) : Z * Z := (client_id r, program_id r).

(** [if client_id:] applies the filter for an id given and not 0. *)
Definition filter_on (wanted : option Z) (actual : Z) : Prop :=
  match wanted with
  | Some w => if decide (w = 0) then True else actual = w
  | None => True
  end.

#[global] Instance filter_on_dec wanted actual : Decision (filter_on wanted actual).
Proof. unfold filter_on. destruct wanted; [case_decide|]; apply _. Defined.

(** [ClientProgramEnrollment.objects.filter(is_archived=False)], narrowed
    by the [--client-id] and [--program-id] options. *)
Definition enrollments_query (client program : option Z) (table : list Row)
    : list Row :=
  filter (λ r, is_archived (enrollment r) = false
               ∧ filter_on client (client_id r)
               ∧ filter_on program (program_id r)) table.

(** [enrollment_groups[key].append(enrollment)] on a [defaultdict(list)],
    which keeps its keys in order of first insertion. *)
Fixpoint append_to_key (key : Z * Z) (e : Enrollment)
    (groups : list (Z * Z * list Enrollment)) : list (Z * Z * list Enrollment) :=
  match groups with
  | [] => [(key, [e])]
  | (k, es) :: rest =>
      if decide (k = key) then (k, es ++ [e]) :: rest
      else (k, es) :: append_to_key key e rest
  end.

(** The loop that fills [enrollment_groups]. *)
Definition group_by_key (rows : list Row) : list (Z * Z * list Enrollment) :=
  foldl (λ groups r, append_to_key (row_key r) (enrollment r) groups) [] rows.

(** An entry of [removal_details]. *)
Record detail : Type := mkDetail {
  d_client_id : Z;
  d_program_id : Z;
  d_kept_id : Z;
  d_removed_ids : list Z;
  d_removed_count : nat
}.

(** The counters and lists the driver keeps while it processes the
    groups; of the list [errors] of messages only the length is kept. *)
Record tally : Type := mkTally {
  groups_with_multiple : nat;
  groups_with_overlaps : nat;
  groups_with_no_overlaps : nat;
  total_duplicate_groups : nat;
  enrollments_in_groups_with_multiple : nat;
  total_removed : nat;
  total_kept : nat;
  groups_with_removals : nat;
  clients_status_updated : nat;
  errors : nat;
  all_removed_ids : list Z;
  removal_details : list detail
}.

Definition tally0 : tally := mkTally 0 0 0 0 0 0 0 0 0 0 [] [].

(** What [handle] has to report at the end. *)
Record summary : Type := mkSummary {
  total_enrollments : nat;
  total_groups : nat;
  counts : tally
}.

Section Driver.

Variable today : Z.

(** The readings of [timezone.now()] during the n-th of the calls of
    [remove_duplicate_group] in which the resolver runs (from 0). *)
Variable clocks : nat → nat → Z.

(** Body of [for group in overlapping_groups]: the [try] block, and the
    [except] clause that records an error and goes on.  Every earlier call
    in which the resolver ran has either counted a kept record or recorded
    an error, which numbers the present call. *)
Definition tally_group (key : Z * Z) (t : tally) (group : list Enrollment)
    : tally :=
  match remove_duplicate_group_dry_run today
          (clocks (total_kept t + errors t)) group with
  | Ok (Some result) =>
      let removed := negb (bool_decide (removed_ids result = [])) in
      mkTally (groups_with_multiple t) (groups_with_overlaps t)
        (groups_with_no_overlaps t) (total_duplicate_groups t)
        (enrollments_in_groups_with_multiple t)
        (total_removed t + removed_count result)
        (total_kept t + 1)
        (groups_with_removals t)
        (if status_updated result then clients_status_updated t + 1
         else clients_status_updated t)
        (errors t)
        (if removed then all_removed_ids t ++ removed_ids result
         else all_removed_ids t)
        (if removed
         then removal_details t
                ++ [mkDetail key.1 key.2 (kept_id result)
                      (removed_ids result) (removed_count result)]
         else removal_details t)
  | Ok None => t
  | Raise _ | OutOfFuel =>
      mkTally (groups_with_multiple t) (groups_with_overlaps t)
        (groups_with_no_overlaps t) (total_duplicate_groups t)
        (enrollments_in_groups_with_multiple t) (total_removed t)
        (total_kept t) (groups_with_removals t) (clients_status_updated t)
        (errors t + 1) (all_removed_ids t) (removal_details t)
  end.

(** Body of [for (client_id, program_id), enrollments in
    enrollment_groups.items()].  The clusterer is called outside any
    [try], so what it raises ends the command. *)
Definition tally_key (item : Z * Z * list Enrollment) (t : tally)
    : result tally :=
  let '(key, enrollments) := item in
  if (length enrollments <=? 1)%nat then Ok t
  else
    overlapping_groups ← find_overlapping_groups today enrollments;
    match overlapping_groups with
    | [] =>
        Ok (mkTally (groups_with_multiple t + 1) (groups_with_overlaps t)
              (groups_with_no_overlaps t + 1) (total_duplicate_groups t)
              (enrollments_in_groups_with_multiple t + length enrollments)
              (total_removed t) (total_kept t) (groups_with_removals t)
              (clients_status_updated t) (errors t) (all_removed_ids t)
              (removal_details t))
    | _ =>
        Ok (foldl (tally_group key)
              (mkTally (groups_with_multiple t + 1) (groups_with_overlaps t + 1)
                 (groups_with_no_overlaps t)
                 (total_duplicate_groups t + length overlapping_groups)
                 (enrollments_in_groups_with_multiple t + length enrollments)
                 (total_removed t) (total_kept t) (groups_with_removals t + 1)
                 (clients_status_updated t) (errors t) (all_removed_ids t)
                 (removal_details t))
              overlapping_groups)
    end.

(** [Command.handle] in a dry run. *)
Definition handle_dry_run (client program : option Z) (table : list Row)
    : result summary :=
  let rows := enrollments_query client program table in
  let enrollment_groups := group_by_key rows in
  t ← for_each tally_key enrollment_groups tally0;
  Ok (mkSummary (length rows) (length enrollment_groups) t).

End Driver.

(** ** Further predicates used to state results *)

(** Every member of the group but the first conflicts with a member listed
    before it. *)
Definition linked (g : list Enrollment) : Prop :=
  ∀ (i : nat) x, g !! S i = Some x →
    ∃ (j : nat) y, (j ≤ i)%nat ∧ g !! j = Some y ∧ ovb y x = true.

(** Two records of [l] conflict: the predicate returns [True] on them in
    one argument order or the other. *)
Definition conflict (l : list Enrollment) (a b : Enrollment) : Prop :=
  a ∈ l ∧ b ∈ l ∧ (ovb a b = true ∨ ovb b a = true).

(** Two records are joined by a chain of conflicting records of [l]. *)
Definition connected (l : list Enrollment) : relation Enrollment :=
  rtc (conflict l).

(** Two records lie in one of the groups together. *)
Definition same_group (groups : list (list Enrollment)) (x y : Enrollment)
    : Prop :=
  ∃ g, g ∈ groups ∧ x ∈ g ∧ y ∈ g.

(** A record without any date. *)
Definition U1 : Enrollment :=
  mkEnrollment 1 None None false None None None None None.


(** Two well-formed ranges: L1 runs from 2024-01-02 to 9999-12-31, the last
    date, and L2 from 2023-01-01 to 2024-01-01, the day before L1 starts. *)
Definition L1 : Enrollment :=
  mkEnrollment 1 (Some 738887) (Some 3652059) false (Some 0)
    None None None None.
Definition L2 : Enrollment :=
  mkEnrollment 2 (Some 738521) (Some 738886) false (Some 0)
    None None None None.

(** A20 runs from day 20 to day 30; B19 ends on day 19 and has no start
    date. *)
Definition A20 : Enrollment :=
  mkEnrollment 20 (Some 20) (Some 30) false (Some 0) None None None None.
Definition B19 : Enrollment :=
  mkEnrollment 19 None (Some 19) false (Some 0) None None None None.


(** Three archived records without creation timestamp, the first with
    notes. *)
Definition W1 : Enrollment :=
  mkEnrollment 1 (Some 1) (Some 10) true None (Some "x"%string) None None None.
Definition W2 : Enrollment :=
  mkEnrollment 2 (Some 1) (Some 10) true None None None None None.

(** The predicate returns on every pair of records of the list, the two
    taken in list order. *)
Fixpoint compared (l : list Enrollment) : Prop :=
  match l with
  | [] => True
  | e1 :: rest =>
      Forall (λ e2, ∃ b, overlap_of e1 e2 = Ok b) rest ∧ compared rest
  end.

(** The pairs of records of a list that conflict in one argument order or
    the other, counted by position. *)
Fixpoint conflicting_either (l : list Enrollment) : nat :=
  match l with
  | [] => 0
  | e1 :: rest =>
      (length (filter (λ e2, ovb e1 e2 || ovb e2 e1 = true) rest)
       + conflicting_either rest)%nat
  end.

(** The pairs of conflicting records of a list, each pair in list order,
    sorted by the position of the first and then of the second record. *)
Fixpoint conflicting_pairs (l : list Enrollment)
    : list (Enrollment * Enrollment) :=
  match l with
  | [] => []
  | e1 :: rest =>
      ((λ e2, (e1, e2)) <$> filter (λ e2, ovb e1 e2 = true) rest)
      ++ conflicting_pairs rest
  end.

(** Two separate pairs of overlapping records: D1 (day 1 to 5), D2 (day 3
    to 8), D3 (day 20 to 25), D4 (day 22 to 30). *)
Definition D1 : Enrollment :=
  mkEnrollment 1 (Some 1) (Some 5) false (Some 0) None None None None.
Definition D2 : Enrollment :=
  mkEnrollment 2 (Some 3) (Some 8) false (Some 0) None None None None.
Definition D3 : Enrollment :=
  mkEnrollment 3 (Some 20) (Some 25) false (Some 0) None None None None.
Definition D4 : Enrollment :=
  mkEnrollment 4 (Some 22) (Some 30) false (Some 0) None None None None.

(** Two overlapping records with ids of their own: S5 (day 1 to 5) and
    S6 (day 3 to 8). *)
Definition S5 : Enrollment :=
  mkEnrollment 5 (Some 1) (Some 5) false (Some 0) None None None None.
Definition S6 : Enrollment :=
  mkEnrollment 6 (Some 3) (Some 8) false (Some 0) None None None None.

(** A table of five rows: the three sample records R1, R2, R3 for client 1
    in program 5, and the overlapping records S5, S6 for client 2. *)
Definition sample_table : list Row :=
  [mkRow 1 5 R1; mkRow 2 5 S5; mkRow 1 5 R2; mkRow 1 5 R3; mkRow 2 5 S6].

(** An entry of [removal_details] names records of one client and program
    of the rows: the kept id and the removed ids belong to rows with the
    entry's client and program, the kept id is not among the removed ones,
    and the count is the number of removed ids. *)
Definition detail_ok (rows : list Row) (d : detail) : Prop :=
  (∀ i, i = d_kept_id d ∨ i ∈ d_removed_ids d →
     ∃ r, r ∈ rows ∧ id (enrollment r) = i
          ∧ client_id r = d_client_id d ∧ program_id r = d_program_id d)
  ∧ (d_kept_id d ∉ d_removed_ids d)
  ∧ d_removed_count d = length (d_removed_ids d).

(** The counters agree with each other after whole keys have been
    processed. *)
Definition tally_ok (rows : list Row) (t : tally) : Prop :=
  errors t = 0%nat
  ∧ clients_status_updated t = 0%nat
  ∧ total_kept t = total_duplicate_groups t
  ∧ total_removed t = length (all_removed_ids t)
  ∧ groups_with_multiple t
    = (groups_with_overlaps t + groups_with_no_overlaps t)%nat
  ∧ groups_with_removals t = groups_with_overlaps t
  ∧ (total_removed t + total_kept t
     ≤ enrollments_in_groups_with_multiple t)%nat
  ∧ all_removed_ids t = concat (d_removed_ids <$> removal_details t)
  ∧ Forall (detail_ok rows) (removal_details t).

(** ** General facts: outcomes, loops, sorting *)

Lemma next_day_before d : d < date_max → next_day d = Ok (d + 1).
Proof.
  intros H. unfold next_day. destruct (Z.leb_spec date_max d); [lia | reflexivity].
Qed.

Lemma ranges_overlap_or_adjacent_dated s1 e1 s2 e2 :
  before_max e1 → before_max e2 →
  ranges_overlap_or_adjacent (Some s1) e1 (Some s2) e2 = Ok (overlapb s1 e1 s2 e2).
Proof.
  destruct e1 as [e1|], e2 as [e2|]; simpl; intros H1 H2; try reflexivity.
  - rewrite !next_day_before by assumption. simpl.
    destruct (s1 <=? e2), (s2 <=? e1), (e1 + 1 =? s2), (e2 + 1 =? s1); reflexivity.
  - destruct (s2 <=? s1); reflexivity.
  - destruct (s1 <=? s2); reflexivity.
Qed.

Lemma overlapb_sym s1 e1 s2 e2 : overlapb s1 e1 s2 e2 = overlapb s2 e2 s1 e1.
Proof.
  destruct e1 as [e1|], e2 as [e2|]; simpl; try reflexivity.
  rewrite (andb_comm (s1 <=? e2)), (orb_comm (e1 + 1 =? s2)). reflexivity.
Qed.

(** When the predicate returns on two ranges with start dates, it returns
    this value. *)
Lemma ranges_overlap_or_adjacent_value s1 e1 s2 e2 b :
  ranges_overlap_or_adjacent (Some s1) e1 (Some s2) e2 = Ok b →
  b = overlapb s1 e1 s2 e2.
Proof.
  destruct e1 as [e1|], e2 as [e2|]; simpl.
  - unfold next_day.
    destruct (date_max <=? e1); simpl;
      [destruct (s1 <=? e2), (s2 <=? e1); discriminate|].
    destruct (e1 + 1 =? s2); simpl.
    + destruct (s1 <=? e2), (s2 <=? e1); simpl; congruence.
    + destruct (date_max <=? e2); simpl;
        [destruct (s1 <=? e2), (s2 <=? e1); discriminate|].
      destruct (s1 <=? e2), (s2 <=? e1), (e2 + 1 =? s1); simpl; congruence.
  - destruct (s2 <=? s1), (s2 <=? e1); simpl; congruence.
  - destruct (s1 <=? s2), (s1 <=? e2); simpl; congruence.
  - congruence.
Qed.

(** Whatever the start dates, the two argument orders cannot return
    different values. *)
Lemma ranges_overlap_or_adjacent_agree s1 e1 s2 e2 b b' :
  ranges_overlap_or_adjacent s1 e1 s2 e2 = Ok b →
  ranges_overlap_or_adjacent s2 e2 s1 e1 = Ok b' → b = b'.
Proof.
  destruct s1 as [s1|], s2 as [s2|].
  - intros H1 H2. apply ranges_overlap_or_adjacent_value in H1, H2.
    rewrite H1, H2. apply overlapb_sym.
  - destruct e1 as [e1|], e2 as [e2|]; simpl; try discriminate; try congruence.
  - destruct e1 as [e1|], e2 as [e2|]; simpl; try discriminate; try congruence.
  - destruct e1 as [e1|], e2 as [e2|]; simpl; try discriminate; congruence.
Qed.

(** C2. The overlap predicate is not symmetric at the last date.  Take the
    range from 2024-01-02 to 9999-12-31 (day 738887 to [date_max]) and the
    range from 2023-01-01 to 2024-01-01 (day 738521 to 738886), which ends
    the day before the first one starts.  With the first range first the
    predicate adds a day to 9999-12-31 and raises [OverflowError]; with the
    second range first it finds the other to start the day after this one
    ends and returns [True], without adding a day to 9999-12-31.  Both
    copies of the predicate do so. *)
Theorem overlap_asymmetric_at_date_max :
  RemoveDuplicacy.ranges_overlap_or_adjacent
    (Some 738887) (Some date_max) (Some 738521) (Some 738886)
  = Raise OverflowError
  ∧ RemoveDuplicacy.ranges_overlap_or_adjacent
      (Some 738521) (Some 738886) (Some 738887) (Some date_max)
    = Ok true
  ∧ ListMultipleEnrollments.ranges_overlap_or_adjacent
      (Some 738887) (Some date_max) (Some 738521) (Some 738886)
    = Raise OverflowError
  ∧ ListMultipleEnrollments.ranges_overlap_or_adjacent
      (Some 738521) (Some 738886) (Some 738887) (Some date_max)
    = Ok true.
Proof. repeat split; vm_compute; reflexivity. Qed.

(** C9. The overlap predicate is not reflexive at the last date: on a
    range that ends on 9999-12-31, whatever its start date, the predicate
    applied to the range and itself raises [OverflowError] (the day is
    added to the end date even when the ranges overlap).  Both copies of
    the predicate do so. *)
Theorem overlap_irreflexive_at_date_max (s : Z) :
  RemoveDuplicacy.ranges_overlap_or_adjacent
    (Some s) (Some date_max) (Some s) (Some date_max)
  = Raise OverflowError
  ∧ ListMultipleEnrollments.ranges_overlap_or_adjacent
      (Some s) (Some date_max) (Some s) (Some date_max)
    = Raise OverflowError.
Proof.
  split; simpl; destruct (s <=? date_max); simpl; reflexivity.
Qed.

(** The outcome of a sequence of two calls. *)
Lemma outcome_bind {A B} (E : exn → Prop) (Q : A → Prop) (R : B → Prop)
    (m : result A) (k : A → result B) :
  outcome E Q m → (∀ a, Q a → outcome E R (k a)) → outcome E R (m ≫= k).
Proof. destruct m as [a| |]; simpl; auto. Qed.

Lemma outcome_impl {A} (E E' : exn → Prop) (Q Q' : A → Prop) (r : result A) :
  outcome E Q r → (∀ e, E e → E' e) → (∀ a, Q a → Q' a) → outcome E' Q' r.
Proof. destruct r as [a| |]; simpl; auto. Qed.

(** A call that raises nothing returns. *)
Lemma outcome_returns {A} (Q : A → Prop) (r : result A) :
  outcome (λ _, False) Q r → ∃ a, r = Ok a ∧ Q a.
Proof. destruct r as [a| |]; simpl; [eauto | tauto | tauto]. Qed.

(** A loop invariant indexed by the part of the list already visited, for
    a loop that returns. *)
Lemma for_each_sound {A S} (body : A → S → result S) (Inv : list A → S → Prop)
    (l : list A) (s0 s' : S) :
  Inv [] s0 →
  (∀ pre x post s s1, l = pre ++ x :: post → Inv pre s →
     body x s = Ok s1 → Inv (pre ++ [x]) s1) →
  for_each body l s0 = Ok s' → Inv l s'.
Proof.
  intros H0 Hstep.
  cut (∀ post pre s, l = pre ++ post → Inv pre s →
         for_each body post s = Ok s' → Inv l s').
  { intros Hgen. apply (Hgen l [] s0); [reflexivity | exact H0]. }
  induction post as [|x post IH]; intros pre s Hl Hinv Hrun.
  - rewrite app_nil_r in Hl. subst pre. simpl in Hrun. congruence.
  - simpl in Hrun. destruct (body x s) as [s1| |] eqn:Hb; try discriminate.
    simpl in Hrun. apply (IH (pre ++ [x]) s1); [|eauto|exact Hrun].
    rewrite <- app_assoc. exact Hl.
Qed.

(** The same for the outcome of the loop: it raises only what its body
    raises. *)
Lemma for_each_outcome {A S} (E : exn → Prop) (body : A → S → result S)
    (Inv : list A → S → Prop) (l : list A) (s0 : S) :
  Inv [] s0 →
  (∀ pre x post s, l = pre ++ x :: post → Inv pre s →
     outcome E (Inv (pre ++ [x])) (body x s)) →
  outcome E (Inv l) (for_each body l s0).
Proof.
  intros H0 Hstep.
  cut (∀ post pre s, l = pre ++ post → Inv pre s →
         outcome E (Inv l) (for_each body post s)).
  { intros Hgen. apply (Hgen l [] s0); [reflexivity | exact H0]. }
  induction post as [|x post IH]; intros pre s Hl Hinv.
  - rewrite app_nil_r in Hl. subst pre. exact Hinv.
  - simpl. apply (outcome_bind E (Inv (pre ++ [x]))); [eauto|].
    intros s1 Hinv1. apply (IH (pre ++ [x])); [|exact Hinv1].
    rewrite <- app_assoc. exact Hl.
Qed.

(** A loop whose body always returns, returns. *)
Lemma for_each_returns {A S} (body : A → S → result S) (l : list A) (s0 : S) :
  (∀ x s, x ∈ l → ∃ s', body x s = Ok s') →
  ∃ s', for_each body l s0 = Ok s'.
Proof.
  revert s0. induction l as [|x l IH]; intros s0 Hbody; simpl; [eauto|].
  destruct (Hbody x s0) as [s1 ->]; [left|]. simpl.
  apply IH. intros y s Hy. apply Hbody. by right.
Qed.

Section Sorting.
Context {A : Type} (key : A → Z).

Lemma insert_by_perm x l : insert_by key x l ≡ₚ x :: l.
Proof.
  induction l as [|y t IH]; simpl; [reflexivity|].
  destruct (key x <=? key y); [reflexivity|].
  rewrite IH. apply Permutation_swap.
Qed.

Lemma sorted_by_perm l : sorted_by key l ≡ₚ l.
Proof.
  induction l as [|x t IH]; simpl; [reflexivity|].
  rewrite insert_by_perm. f_equiv. exact IH.
Qed.

Lemma elem_of_sorted_by x l : x ∈ sorted_by key l ↔ x ∈ l.
Proof. rewrite sorted_by_perm. reflexivity. Qed.

Lemma insert_by_sorted x l :
  StronglySorted (key_le key) l → StronglySorted (key_le key) (insert_by key x l).
Proof.
  induction 1 as [|y t Hs IH Hall]; simpl.
  - repeat constructor.
  - destruct (Z.leb_spec (key x) (key y)) as [Hle|Hlt].
    + constructor; [constructor; assumption|].
      constructor; [exact Hle|].
      eapply Forall_impl; [exact Hall|]. unfold key_le. intros; simpl in *; lia.
    + constructor; [exact IH|].
      rewrite insert_by_perm. constructor; [unfold key_le; lia | exact Hall].
Qed.

Lemma sorted_by_sorted l : StronglySorted (key_le key) (sorted_by key l).
Proof.
  induction l as [|x t IH]; simpl; [constructor|].
  apply insert_by_sorted. exact IH.
Qed.

(** In a sorted list an element is below everything after it. *)
Lemma sorted_split_le pre x post y :
  StronglySorted (key_le key) (pre ++ x :: post) → y ∈ post → key x <= key y.
Proof.
  intros Hs Hy. apply StronglySorted_app_1_r in Hs.
  apply StronglySorted_inv in Hs as [_ Hall].
  rewrite Forall_forall in Hall. apply Hall. exact Hy.
Qed.

(** The head of a sorted arrangement has the least key. *)
Lemma sorted_by_head_min l x t y :
  sorted_by key l = x :: t → y ∈ l → key x <= key y.
Proof.
  intros Heq Hy. apply elem_of_sorted_by in Hy. rewrite Heq in Hy.
  apply elem_of_cons in Hy as [->|Hy]; [lia|].
  pose proof (sorted_by_sorted l) as Hs. rewrite Heq in Hs.
  apply (sorted_split_le [] x t y); assumption.
Qed.

Lemma sorted_by_head_elem l x t : sorted_by key l = x :: t → x ∈ l.
Proof.
  intros Heq. apply elem_of_sorted_by. rewrite Heq. apply elem_of_cons. by left.
Qed.

Lemma sorted_by_nil l : sorted_by key l = [] → l = [].
Proof.
  intros Heq. apply Permutation_nil_r. rewrite <- Heq. symmetry. apply sorted_by_perm.
Qed.
End Sorting.




(** ** The overlap predicate on records *)

Lemma overlap_of_comparable x y :
  dated x → dated y → below_max x → below_max y →
  overlap_of x y = Ok (ovb x y).
Proof.
  intros [s1 H1] [s2 H2] Hx Hy. unfold ovb, overlap_of. rewrite H1, H2.
  rewrite ranges_overlap_or_adjacent_dated by assumption.
  destruct (overlapb s1 (end_date x) s2 (end_date y)); reflexivity.
Qed.

Lemma overlap_of_agree x y b b' :
  overlap_of x y = Ok b → overlap_of y x = Ok b' → b = b'.
Proof. apply ranges_overlap_or_adjacent_agree. Qed.

Lemma overlap_of_ovb x y b : overlap_of x y = Ok b → ovb x y = b.
Proof. intros H. unfold ovb. rewrite H. by destruct b. Qed.

Lemma ovb_true x y : ovb x y = true ↔ overlap_of x y = Ok true.
Proof. unfold ovb. apply bool_decide_eq_true. Qed.

(** The ways the predicate can end. *)
Lemma overlap_outcome s1 e1 s2 e2 :
  (∃ b, ranges_overlap_or_adjacent s1 e1 s2 e2 = Ok b)
  ∨ (ranges_overlap_or_adjacent s1 e1 s2 e2 = Raise TypeError
     ∧ (s1 = None ∨ s2 = None) ∧ (is_Some e1 ∨ is_Some e2))
  ∨ (ranges_overlap_or_adjacent s1 e1 s2 e2 = Raise OverflowError
     ∧ ∃ t1 t2, e1 = Some t1 ∧ e2 = Some t2
                ∧ (date_max <= t1 ∨ date_max <= t2)).
Proof.
  destruct e1 as [t1|], e2 as [t2|].
  - destruct s1 as [s1|];
      [|right; left; split; [reflexivity|]; split; eauto].
    cbn [ranges_overlap_or_adjacent date_le mbind result_bind].
    assert (Hov : (∃ ov, (if s1 <=? t2 then date_le s2 (Some t1) else Ok false)
                         = Ok ov)
                  ∨ ((if s1 <=? t2 then date_le s2 (Some t1) else Ok false)
                     = Raise TypeError ∧ s2 = None)).
    { destruct (s1 <=? t2); [|left; eauto].
      destruct s2 as [s2|]; simpl; [left; eauto | right; auto]. }
    destruct Hov as [[ov ->] | [-> ->]];
      [|right; left; split; [reflexivity|]; split; eauto].
    cbn [mbind result_bind]. unfold next_day.
    destruct (Z.leb_spec date_max t1) as [Hmax1|Hlt1].
    { right. right. split; [reflexivity|]. exists t1, t2. auto. }
    cbn [mbind result_bind].
    destruct (date_eqb (Some (t1 + 1)) s2); [left; eauto|].
    destruct (Z.leb_spec date_max t2) as [Hmax2|Hlt2].
    { right. right. split; [reflexivity|]. exists t1, t2. auto. }
    left. eauto.
  - destruct s1 as [s1|], s2 as [s2|]; simpl;
      try (right; left; split; [reflexivity|]; split; eauto; fail).
    destruct (s2 <=? s1); left; eauto.
  - destruct s1 as [s1|], s2 as [s2|]; simpl;
      try (right; left; split; [reflexivity|]; split; eauto; fail).
    destruct (s1 <=? s2); left; eauto.
  - left. eauto.
Qed.

Lemma overlap_of_cases x y :
  (∃ b, overlap_of x y = Ok b)
  ∨ (overlap_of x y = Raise TypeError ∧ ¬ (dated x ∧ dated y))
  ∨ (overlap_of x y = Raise OverflowError ∧ ¬ (below_max x ∧ below_max y)).
Proof.
  unfold overlap_of, dated, below_max.
  destruct (overlap_outcome (start_date x) (end_date x)
              (start_date y) (end_date y))
    as [Hok | [(Hr & Hs & _) | (Hr & t1 & t2 & H1 & H2 & Hmax)]].
  - by left.
  - right. left. split; [exact Hr|].
    intros [[s1 Hs1] [s2 Hs2]]. destruct Hs; congruence.
  - right. right. split; [exact Hr|]. rewrite H1, H2. simpl. lia.
Qed.

(** The predicate raises nothing else, whatever the records. *)
Lemma overlap_of_raises x y :
  outcome (λ e, e = TypeError ∨ e = OverflowError) (λ _, True) (overlap_of x y).
Proof.
  destruct (overlap_of_cases x y) as [[b ->] | [[-> _] | [-> _]]]; simpl; auto.
Qed.

(** On records with start dates it does not raise [TypeError], and on
    records that end before the last date it does not raise
    [OverflowError]. *)
Lemma overlap_of_raises_dated x y :
  dated x → dated y →
  outcome (λ e, e = OverflowError) (λ _, True) (overlap_of x y).
Proof.
  intros Hx Hy.
  destruct (overlap_of_cases x y) as [[b ->] | [[-> Hn] | [-> _]]]; simpl; auto.
  exfalso. auto.
Qed.

Lemma overlap_of_raises_below x y :
  below_max x → below_max y →
  outcome (λ e, e = TypeError) (λ _, True) (overlap_of x y).
Proof.
  intros Hx Hy.
  destruct (overlap_of_cases x y) as [[b ->] | [[-> _] | [-> Hn]]]; simpl; auto.
  exfalso. auto.
Qed.

(** ** Sets of ids *)

Lemma ids_app l1 l2 : ids (l1 ++ l2) = ids l1 ∪ ids l2.
Proof. unfold ids. rewrite fmap_app. apply list_to_set_app_L. Qed.

Lemma ids_nil : ids [] = ∅.
Proof. reflexivity. Qed.

Lemma ids_cons x l : ids (x :: l) = {[id x]} ∪ ids l.
Proof. reflexivity. Qed.

Lemma elem_of_ids i l : i ∈ ids l ↔ ∃ a, a ∈ l ∧ id a = i.
Proof.
  unfold ids. rewrite elem_of_list_to_set, list_elem_of_fmap. split.
  - intros (a & -> & Ha). eauto.
  - intros (a & Ha & <-). eauto.
Qed.

Lemma id_elem_of_ids a l : a ∈ l → id a ∈ ids l.
Proof. intros. apply elem_of_ids. eauto. Qed.

(** With distinct ids, a record is determined by its id. *)
Lemma NoDup_ids_inj l x y :
  NoDup (id <$> l) → x ∈ l → y ∈ l → id x = id y → x = y.
Proof.
  induction l as [|a l IH]; intros Hnd Hx Hy Heq; [inversion Hx|].
  rewrite fmap_cons in Hnd. apply NoDup_cons in Hnd as [Ha Hnd].
  apply elem_of_cons in Hx as [->|Hx]; apply elem_of_cons in Hy as [->|Hy].
  - reflexivity.
  - exfalso. apply Ha. rewrite Heq. apply list_elem_of_fmap. eauto.
  - exfalso. apply Ha. rewrite <- Heq. apply list_elem_of_fmap. eauto.
  - auto.
Qed.

Lemma pending_le S P : (pending S P ≤ length S)%nat.
Proof. apply length_filter. Qed.

(** Marking one more record of [S] lowers the number still pending. *)
Lemma pending_decreases S P P' a :
  P ⊆ P' → a ∈ S → id a ∉ P → id a ∈ P' → (pending S P' < pending S P)%nat.
Proof.
  intros Hsub. unfold pending.
  assert (Hmono : ∀ l, (length (filter (λ e, id e ∉ P') l)
                        ≤ length (filter (λ e, id e ∉ P) l))%nat).
  { induction l as [|x l IH]; [reflexivity|].
    rewrite !filter_cons. repeat case_decide; simpl; try lia.
    exfalso. set_solver. }
  induction S as [|x S IH]; intros Ha HP HP'; [inversion Ha|].
  rewrite !filter_cons. apply elem_of_cons in Ha as [<-|Ha].
  - specialize (Hmono S). repeat case_decide; simpl; try lia; contradiction.
  - specialize (IH Ha HP HP'). repeat case_decide; simpl; try lia.
    exfalso. set_solver.
Qed.


(** ** One pass of the absorption loop *)

Lemma overlaps_any_sound G y b :
  overlaps_any G y = Ok b →
  if b then ∃ m, m ∈ G ∧ overlap_of m y = Ok true
  else ∀ m, m ∈ G → overlap_of m y = Ok false.
Proof.
  revert b. induction G as [|m G IH]; simpl; intros b H.
  - injection H as <-. intros m Hm. inversion Hm.
  - fold (overlap_of m y) in H.
    destruct (overlap_of m y) as [[|]| |] eqn:Hm; simpl in H; try discriminate.
    + injection H as <-. exists m. split; [left | exact Hm].
    + specialize (IH b H). destruct b.
      * destruct IH as (m' & Hm' & Hov). exists m'. split; [by right | exact Hov].
      * intros m' Hm'. apply elem_of_cons in Hm' as [->|Hm']; auto.
Qed.

(** What [absorb_step] has done when it returns: nothing, for a record
    already processed or one the predicate returned [False] on against
    every member; or it has appended a record that conflicts with a
    member. *)
Lemma absorb_step_sound x G P c st :
  absorb_step x (G, P, c) = Ok st →
  (st = (G, P, c) ∧ (id x ∈ P ∨ ∀ m, m ∈ G → overlap_of m x = Ok false))
  ∨ ((id x ∉ P) ∧ st = (G ++ [x], {[id x]} ∪ P, true)
     ∧ ∃ m, m ∈ G ∧ overlap_of m x = Ok true).
Proof.
  unfold absorb_step. case_decide as Hp.
  - intros H. injection H as <-. left. auto.
  - destruct (overlaps_any G x) as [b| |] eqn:Hany; simpl; try discriminate.
    apply overlaps_any_sound in Hany.
    destruct b; intros H; injection H as <-; [right | left]; auto.
Qed.

(** A pass that returns has appended to the group records of [S] that were
    not processed, marked exactly those, and reports a change exactly when
    it appended something; a pass without change has compared every
    pending record with every member. *)
Lemma absorb_pass_sound S G P G' P' c :
  absorb_pass S G P = Ok (G', P', c) →
  ∃ added,
    G' = G ++ added ∧ P' = ids added ∪ P
    ∧ (∀ a, a ∈ added → a ∈ S ∧ id a ∉ P)
    ∧ NoDup (id <$> added)
    ∧ (c = true → added ≠ [])
    ∧ (c = false → added = [] ∧ sealed S G P).
Proof.
  intros Hpass. unfold absorb_pass in Hpass.
  pose proof (for_each_sound absorb_step
    (λ pre st, ∃ added c,
       st = (G ++ added, ids added ∪ P, c)
       ∧ (∀ a, a ∈ added → a ∈ pre ∧ id a ∉ P)
       ∧ NoDup (id <$> added)
       ∧ (c = true → added ≠ [])
       ∧ (c = false → added = [] ∧
            ∀ y m, y ∈ pre → id y ∉ P → m ∈ G → overlap_of m y = Ok false))
    S (G, P, false) (G', P', c)) as Hinv.
  destruct Hinv as (added & c' & Heq & Hin & Hnd & Hct & Hcf); [| |exact Hpass|].
  - exists [], false. rewrite app_nil_r, ids_nil, (left_id_L ∅ (∪)).
    repeat split; try discriminate.
    + inversion H.
    + inversion H.
    + constructor.
    + intros y m Hy. inversion Hy.
  - intros pre x post st s1 Hl (added & c1 & -> & Hin & Hnd & Hct & Hcf) Hstep.
    apply absorb_step_sound in Hstep
      as [[-> Hwhy] | (Hnew & -> & m0 & Hm0 & Hov)].
    + exists added, c1. repeat split; auto.
      * apply elem_of_app. left. apply Hin, H.
      * apply Hin, H.
      * apply Hcf, H.
      * intros y m Hy HyP Hm. destruct (Hcf H) as [-> Hseal].
        apply elem_of_app in Hy as [Hy|Hy]; [eauto|].
        apply list_elem_of_singleton in Hy as ->.
        rewrite app_nil_r, ids_nil, (left_id_L ∅ (∪)) in Hwhy.
        destruct Hwhy as [Hproc|Hall]; [contradiction | auto].
    + exists (added ++ [x]), true. repeat split; try discriminate.
      * rewrite <- app_assoc, ids_app, ids_cons, ids_nil.
        f_equal. f_equal. set_solver.
      * apply elem_of_app in H as [H|H].
        -- apply elem_of_app. left. apply Hin, H.
        -- apply list_elem_of_singleton in H as ->. set_solver.
      * apply elem_of_app in H as [H|H]; [apply Hin, H|].
        apply list_elem_of_singleton in H as ->. set_solver.
      * rewrite fmap_app. apply NoDup_app. split; [exact Hnd|]. split.
        -- intros i Hi Hi'. apply list_elem_of_singleton in Hi' as ->.
           apply Hnew. apply elem_of_union. left.
           unfold ids. apply elem_of_list_to_set. exact Hi.
        -- apply NoDup_singleton.
      * intros _ Happ. by destruct added.
  - injection Heq as -> -> ->. exists added. repeat split; auto.
    + apply Hin, H.
    + apply Hin, H.
    + apply Hcf, H.
    + intros y m Hy HyP Hm. destruct (Hcf H) as [_ Hseal]. eauto.
Qed.

(** ** The absorption loop *)

Section Loop.
Context (S G0 : list Enrollment) (P0 : gset Z).

Lemma grown_refl : grown S G0 P0 G0 P0.
Proof.
  exists []. rewrite app_nil_r, ids_nil, (left_id_L ∅ (∪)).
  split; [reflexivity|]. split; [reflexivity|].
  split; [intros a Ha; inversion Ha | constructor].
Qed.

Lemma grown_step G P added :
  grown S G0 P0 G P →
  (∀ a, a ∈ added → a ∈ S ∧ id a ∉ P) → NoDup (id <$> added) →
  grown S G0 P0 (G ++ added) (ids added ∪ P).
Proof.
  intros (added0 & -> & -> & Hin0 & Hnd0) Hin Hnd.
  exists (added0 ++ added). repeat split.
  - by rewrite app_assoc.
  - rewrite ids_app. set_solver.
  - apply elem_of_app in H as [H|H]; [apply Hin0, H | apply Hin, H].
  - apply elem_of_app in H as [H|H]; [apply Hin0, H|].
    apply Hin in H as [_ H]. set_solver.
  - rewrite fmap_app. apply NoDup_app. repeat split; [exact Hnd0| |exact Hnd].
    intros i Hi Hi'. apply list_elem_of_fmap in Hi' as (a & -> & Ha).
    apply Hin in Ha as [_ Ha]. apply Ha. apply elem_of_union. left.
    unfold ids. apply elem_of_list_to_set. exact Hi.
Qed.

(** A loop that returns has closed the group: the predicate has returned
    [False] on every member against every record still pending; and it
    has kept every property [J] that a pass keeps. *)
Lemma absorb_loop_sound (J : list Enrollment → gset Z → Prop) :
  (∀ G P G' P' c, grown S G0 P0 G P → J G P →
     absorb_pass S G P = Ok (G', P', c) → J G' P') →
  ∀ fuel G P G' P', absorb_loop fuel S G P = Ok (G', P') →
    grown S G0 P0 G P → J G P →
    grown S G0 P0 G' P' ∧ J G' P' ∧ sealed S G' P'.
Proof.
  intros HJ. induction fuel as [|fuel IH]; intros G P G' P' Hrun Hgr HJ0;
    [discriminate|].
  simpl in Hrun.
  destruct (absorb_pass S G P) as [[[G1 P1] c]| |] eqn:Hpass; try discriminate.
  simpl in Hrun.
  pose proof (HJ _ _ _ _ _ Hgr HJ0 Hpass) as HJ1.
  destruct (absorb_pass_sound _ _ _ _ _ _ Hpass)
    as (added & -> & -> & Hin & Hnd & Hct & Hcf).
  pose proof (grown_step G P added Hgr Hin Hnd) as Hgr1.
  destruct c.
  - eapply IH; eauto.
  - injection Hrun as <- <-. destruct (Hcf eq_refl) as [-> Hseal].
    rewrite app_nil_r, ids_nil, (left_id_L ∅ (∪)) in *. auto.
Qed.
End Loop.

(** ** What the clusterer raises *)

Section Outcomes.
Context (E : exn → Prop) (S : list Enrollment).
Context (HE : ∀ x y, x ∈ S → y ∈ S → outcome E (λ _, True) (overlap_of x y)).

Lemma overlaps_any_outcome G y :
  (∀ m, m ∈ G → m ∈ S) → y ∈ S → outcome E (λ _, True) (overlaps_any G y).
Proof.
  intros HG Hy. induction G as [|m G IH]; simpl; [exact I|].
  fold (overlap_of m y).
  apply (outcome_bind E (λ _, True)); [apply HE; [apply HG; left | exact Hy]|].
  intros [|] _; [exact I|]. apply IH. intros m' Hm'. apply HG. by right.
Qed.

Lemma absorb_step_outcome x G P c :
  (∀ m, m ∈ G → m ∈ S) → x ∈ S →
  outcome E (λ st, ∀ m, m ∈ (st.1).1 → m ∈ S) (absorb_step x (G, P, c)).
Proof.
  intros HG Hx. unfold absorb_step. case_decide; [exact HG|].
  apply (outcome_bind E (λ _, True)); [by apply overlaps_any_outcome|].
  intros [|] _; simpl; [|exact HG].
  intros m Hm. apply elem_of_app in Hm as [Hm|Hm]; [auto|].
  by apply list_elem_of_singleton in Hm as ->.
Qed.

Lemma absorb_pass_outcome G P :
  (∀ m, m ∈ G → m ∈ S) → outcome E (λ _, True) (absorb_pass S G P).
Proof.
  intros HG. unfold absorb_pass.
  eapply outcome_impl;
    [apply (for_each_outcome E absorb_step
              (λ _ st, ∀ m, m ∈ (st.1).1 → m ∈ S)) | auto | auto].
  - exact HG.
  - intros pre x post [[G1 P1] c1] HSeq HG1.
    apply absorb_step_outcome; [exact HG1|]. rewrite HSeq. set_solver.
Qed.

(** The loop ends within its budget: a pass that changes something marks a
    record that was pending. *)
Lemma absorb_loop_outcome fuel G P :
  (pending S P < fuel)%nat → (∀ m, m ∈ G → m ∈ S) →
  outcome E (λ _, True) (absorb_loop fuel S G P).
Proof.
  revert G P. induction fuel as [|fuel IH]; intros G P Hfuel HG; [lia|].
  simpl. pose proof (absorb_pass_outcome G P HG) as Hout.
  destruct (absorb_pass S G P) as [[[G1 P1] c]| |] eqn:Hpass;
    simpl in *; [|exact Hout|exact Hout].
  destruct c; [|exact I].
  destruct (absorb_pass_sound _ _ _ _ _ _ Hpass)
    as (added & -> & -> & Hin & Hnd & Hct & _).
  apply IH.
  - destruct added as [|a added]; [by specialize (Hct eq_refl)|].
    assert (Ha : a ∈ a :: added) by left.
    destruct (Hin a Ha) as [HaS HaP].
    assert ((pending S (ids (a :: added) ∪ P) < pending S P)%nat); [|lia].
    apply (pending_decreases S P _ a); auto.
    + set_solver.
    + rewrite ids_cons. set_solver.
  - intros m Hm. apply elem_of_app in Hm as [Hm|Hm]; [auto | apply Hin, Hm].
Qed.

Lemma group_step_outcome e groups P :
  e ∈ S → outcome E (λ _, True) (group_step S e (groups, P)).
Proof.
  intros He. unfold group_step. case_decide; [exact I|].
  apply (outcome_bind E (λ _, True)).
  - apply absorb_loop_outcome.
    + pose proof (pending_le S ({[id e]} ∪ P)). lia.
    + intros m Hm. by apply list_elem_of_singleton in Hm as ->.
  - intros [G P'] _. destruct (1 <? length G)%nat; exact I.
Qed.

Lemma outer_loop_outcome st :
  outcome E (λ _, True) (for_each (group_step S) S st).
Proof.
  apply (for_each_outcome E (group_step S) (λ _ _, True)); [exact I|].
  intros pre x post [groups P] HSeq _. apply group_step_outcome.
  rewrite HSeq. set_solver.
Qed.
End Outcomes.

(** The clusterer raises only what the predicate raises on two input
    records, and always within the budget of its inner loop. *)
Lemma find_overlapping_groups_outcome (E : exn → Prop) today l :
  (∀ x y, x ∈ l → y ∈ l → outcome E (λ _, True) (overlap_of x y)) →
  outcome E (λ _, True) (find_overlapping_groups today l).
Proof.
  intros HE. unfold find_overlapping_groups. destruct l as [|e l]; [exact I|].
  apply (outcome_bind E (λ _, True)).
  - apply outer_loop_outcome. intros x y Hx Hy.
    apply HE; eapply elem_of_sorted_by; eassumption.
  - intros [groups P] _. exact I.
Qed.

(** On records with start dates, none ending on the last date, the
    clusterer returns groups. *)
Lemma find_overlapping_groups_returns today l :
  comparable l → ∃ groups, find_overlapping_groups today l = Ok groups.
Proof.
  intros [Hd Hb]. rewrite Forall_forall in Hd, Hb.
  destruct (outcome_returns (λ _, True) (find_overlapping_groups today l))
    as (groups & Hfind & _); [|eauto].
  apply find_overlapping_groups_outcome. intros x y Hx Hy.
  rewrite overlap_of_comparable by auto. exact I.
Qed.

(** ** One round of the outer loop *)

Section Round.
Context (S : list Enrollment).

(** A round that returns has skipped a processed record, or has seeded a
    group with the record and closed it. *)
Lemma group_step_sound (J : list Enrollment → gset Z → Prop) e groups P st :
  (∀ G Q G' Q' c, grown S [e] ({[id e]} ∪ P) G Q → J G Q →
     absorb_pass S G Q = Ok (G', Q', c) → J G' Q') →
  J [e] ({[id e]} ∪ P) →
  group_step S e (groups, P) = Ok st →
  (id e ∈ P ∧ st = (groups, P))
  ∨ ((id e ∉ P)
     ∧ ∃ G P',
         st = (if (1 <? length G)%nat then groups ++ [G] else groups, P')
         ∧ grown S [e] ({[id e]} ∪ P) G P' ∧ J G P' ∧ sealed S G P').
Proof.
  intros HJ HJ0. unfold group_step. case_decide as Hp.
  { intros H. injection H as <-. by left. }
  destruct (absorb_loop _ S [e] _) as [[G P']| |] eqn:Hloop; simpl;
    try discriminate.
  intros Hst. right. split; [exact Hp|]. exists G, P'.
  split; [destruct (1 <? length G)%nat; congruence|].
  apply (absorb_loop_sound S [e] ({[id e]} ∪ P) J HJ _ _ _ _ _ Hloop);
    [apply grown_refl | exact HJ0].
Qed.

(** Shape of a closed group: the seed, then absorbed records of [S] whose
    ids are new and distinct. *)
Lemma grown_seed e P G P' :
  e ∈ S → id e ∉ P → grown S [e] ({[id e]} ∪ P) G P' →
  P' = ids G ∪ P ∧ e ∈ G ∧ (∀ a, a ∈ G → a ∈ S ∧ id a ∉ P)
  ∧ NoDup (id <$> G).
Proof.
  intros He Hnew (added & -> & -> & Hin & Hnd). simpl. repeat split.
  - rewrite ids_cons. set_solver.
  - left.
  - apply elem_of_cons in H as [->|H]; [exact He | apply Hin, H].
  - apply elem_of_cons in H as [->|H]; [exact Hnew|].
    apply Hin in H as [_ H]. set_solver.
  - apply NoDup_cons. split; [|exact Hnd].
    intros Hi. apply list_elem_of_fmap in Hi as (a & Heq & Ha).
    apply Hin in Ha as [_ Ha]. set_solver.
Qed.
End Round.

Lemma two_members_length {A} (l : list A) x y :
  x ∈ l → y ∈ l → x ≠ y → (2 ≤ length l)%nat.
Proof.
  destruct l as [|a [|b l]]; simpl; intros Hx Hy Hne; try lia.
  - inversion Hx.
  - apply list_elem_of_singleton in Hx, Hy. congruence.
Qed.

Lemma elem_of_concat {A} (gs : list (list A)) x :
  x ∈ concat gs ↔ ∃ g, x ∈ g ∧ g ∈ gs.
Proof.
  induction gs as [|g gs IH]; simpl.
  - split; [intros H; inversion H | intros (g & _ & H); inversion H].
  - rewrite elem_of_app, IH. split.
    + intros [Hx | (g' & Hx & Hg')]; [exists g; split; [exact Hx | left]|].
      exists g'. split; [exact Hx | by right].
    + intros (g' & Hx & Hg'). apply elem_of_cons in Hg' as [->|Hg']; [by left|].
      right. eauto.
Qed.

Lemma elem_of_concat_snoc {A} (gs : list (list A)) g x :
  x ∈ concat (gs ++ [g]) ↔ x ∈ concat gs ∨ x ∈ g.
Proof. rewrite concat_app, elem_of_app. simpl. rewrite app_nil_r. reflexivity. Qed.

(** Disjoint groups: a record lies in one group only. *)
Lemma NoDup_concat_same_group {A} (gs : list (list A)) g1 g2 x :
  NoDup (concat gs) → g1 ∈ gs → g2 ∈ gs → x ∈ g1 → x ∈ g2 → g1 = g2.
Proof.
  induction gs as [|g gs IH]; intros Hnd H1 H2 Hx1 Hx2; [inversion H1|].
  simpl in Hnd. apply NoDup_app in Hnd as (_ & Hdisj & Hnd).
  assert (Hin : ∀ g', g' ∈ gs → x ∈ g' → x ∈ concat gs).
  { intros g' Hg' Hx. apply elem_of_concat. eauto. }
  apply elem_of_cons in H1 as [->|H1]; apply elem_of_cons in H2 as [->|H2].
  - reflexivity.
  - exfalso. eapply Hdisj; eauto.
  - exfalso. eapply Hdisj; eauto.
  - auto.
Qed.


(** ** The outer loop keeps the clustering invariant *)

Section Clustering.
Context (S : list Enrollment).
Context (Hids : NoDup (id <$> S)).

Lemma clustered_init : clustered S [] [] ∅.
Proof.
  repeat split; simpl.
  - intros x Hx. inversion Hx.
  - constructor.
  - inversion H.
  - inversion H.
  - intros x y _ _ Hx. set_solver.
  - intros x y _ _ Hx. set_solver.
  - intros g Hg. inversion Hg.
  - intros x y _ _ _ Hx. set_solver.
Qed.

Lemma clustered_step pre x post groups P st :
  S = pre ++ x :: post → clustered S pre groups P →
  group_step S x (groups, P) = Ok st →
  clustered S (pre ++ [x]) st.1 st.2.
Proof.
  intros HSeq (Ha & Hb & Hc & Hd & He & Hf & Hg) Hstep.
  assert (Hx : x ∈ S) by (rewrite HSeq; set_solver).
  apply (group_step_sound S (λ _ _, True)) in Hstep
    as [[Hproc ->] | (Hnew & G & P' & -> & Hgr & _ & Hseal)]; [| |auto|auto].
  { simpl. repeat split; auto; try (apply Hc; assumption).
    intros z Hz. apply elem_of_app in Hz as [Hz|Hz]; [auto|].
    apply list_elem_of_singleton in Hz as ->. exact Hproc. }
  destruct (grown_seed S x P G P' Hx Hnew Hgr) as (-> & HxG & HG & HndG).
  simpl.
  set (groups' := if (1 <? length G)%nat then groups ++ [G] else groups).
  assert (HGS : ∀ a, a ∈ G → a ∈ S) by (intros a Ha'; apply HG, Ha').
  assert (HGP : ∀ a, a ∈ G → id a ∉ P) by (intros a Ha'; apply HG, Ha').
  assert (F1 : ∀ z, z ∈ S → id z ∈ ids G ∪ P → id z ∉ P → z ∈ G).
  { intros z Hz Hz' HzP. apply elem_of_union in Hz' as [Hz'|Hz']; [|contradiction].
    apply elem_of_ids in Hz' as (a & Ha' & Heq).
    rewrite <- (NoDup_ids_inj S a z Hids); auto. }
  assert (Hsub : ∀ g, g ∈ groups → g ∈ groups').
  { intros g Hg'. unfold groups'. destruct (1 <? length G)%nat; [|exact Hg'].
    apply elem_of_app. by left. }
  assert (Hcat : ∀ z, z ∈ concat groups' →
                      z ∈ concat groups ∨ (z ∈ G ∧ groups' = groups ++ [G])).
  { intros z. unfold groups'. destruct (1 <? length G)%nat; [|by left].
    rewrite elem_of_concat_snoc. intros [?|?]; [by left | by right]. }
  assert (Hcat' : ∀ z, z ∈ concat groups → z ∈ concat groups').
  { intros z Hz. apply elem_of_concat in Hz as (g & Hzg & Hg').
    apply elem_of_concat. exists g. split; [exact Hzg | apply Hsub, Hg']. }
  split; [|split; [|split; [|split; [|split; [|split]]]]].
  - intros z Hz. apply elem_of_app in Hz as [Hz|Hz].
    + apply elem_of_union. right. auto.
    + apply list_elem_of_singleton in Hz as ->.
      apply elem_of_union. left. apply id_elem_of_ids, HxG.
  - unfold groups'. destruct (1 <? length G)%nat; [|exact Hb].
    rewrite concat_app, fmap_app. simpl. rewrite app_nil_r.
    apply NoDup_app. split; [exact Hb|]. split; [|exact HndG].
    intros i Hi Hi'.
    apply list_elem_of_fmap in Hi as (a & -> & Ha').
    apply list_elem_of_fmap in Hi' as (b & Heq & Hb').
    apply (HGP b Hb'). rewrite <- Heq. apply Hc, Ha'.
  - intros z Hz. apply Hcat in Hz as [Hz|[Hz _]].
    + destruct (Hc z Hz). split; [assumption|]. apply elem_of_union. by right.
    + split; [auto|]. apply elem_of_union. left. apply id_elem_of_ids, Hz.
  - intros x1 y Hx1 Hy Hx1P HyP.
    destruct (decide (id x1 ∈ P)) as [Hold|Hfresh].
    + apply Hd; auto. set_solver.
    + apply (Hseal y x1); auto.
  - intros x1 y Hx1 Hy Hx1P HyP Hne Hov.
    destruct (decide (id x1 ∈ P)) as [Hx1o|Hx1n];
      destruct (decide (id y ∈ P)) as [Hyo|Hyn].
    + destruct (He x1 y) as (g & Hg' & ? & ?); auto. exists g. auto.
    + rewrite (Hd x1 y) in Hov; auto. discriminate.
    + pose proof (Hd y x1 Hy Hx1 Hyo Hx1n) as Hrev.
      pose proof (overlap_of_agree _ _ _ _ Hov Hrev). discriminate.
    + pose proof (F1 x1 Hx1 Hx1P Hx1n) as Hx1G.
      pose proof (F1 y Hy HyP Hyn) as HyG.
      pose proof (two_members_length G x1 y Hx1G HyG Hne) as Hlen.
      exists G. split; [|auto]. unfold groups'.
      destruct (Nat.ltb_spec 1 (length G)); [|lia].
      apply elem_of_app. right. by left.
  - intros g. unfold groups'. destruct (Nat.ltb_spec 1 (length G)); [|apply Hf].
    intros Hg'. apply elem_of_app in Hg' as [Hg'|Hg']; [apply Hf, Hg'|].
    apply list_elem_of_singleton in Hg' as ->. lia.
  - intros x1 y Hx1 Hy Hne Hx1P Hout.
    destruct (decide (id x1 ∈ P)) as [Hx1o|Hx1n].
    { apply Hg; auto. }
    pose proof (F1 x1 Hx1 Hx1P Hx1n) as Hx1G.
    destruct (decide (id y ∈ ids G ∪ P)) as [HyP|HyP].
    + destruct (decide (id y ∈ P)) as [Hyo|Hyn].
      * right. apply Hd; auto.
      * pose proof (F1 y Hy HyP Hyn) as HyG.
        pose proof (two_members_length G x1 y Hx1G HyG Hne) as Hlen.
        exfalso. apply Hout. unfold groups'.
        destruct (Nat.ltb_spec 1 (length G)); [|lia].
        apply elem_of_concat_snoc. by right.
    + left. apply (Hseal y x1); auto.
Qed.

(** If the clusterer's outer loop returns on records with distinct ids, its
    result is clustered. *)
Lemma outer_loop_clustered groups P :
  for_each (group_step S) S ([], ∅) = Ok (groups, P) →
  clustered S S groups P.
Proof.
  intros Hrun.
  apply (for_each_sound (group_step S)
           (λ pre st, clustered S pre st.1 st.2) S ([], ∅) (groups, P));
    [apply clustered_init| |exact Hrun].
  intros pre x post [groups1 P1] st Heq Hcl. simpl in Hcl.
  apply (clustered_step pre x post groups1 P1 st Heq Hcl).
Qed.
End Clustering.

(** ** The clusterer on records with distinct ids *)

Lemma find_overlapping_groups_run today enrollments groups :
  enrollments ≠ [] →
  find_overlapping_groups today enrollments = Ok groups →
  ∃ P, for_each (group_step (sorted_by (start_key today) enrollments))
         (sorted_by (start_key today) enrollments) ([], ∅) = Ok (groups, P).
Proof.
  intros Hne. unfold find_overlapping_groups.
  destruct enrollments as [|e l]; [contradiction|].
  destruct (for_each _ _ _) as [[gs P]| |]; simpl; try discriminate.
  intros H. injection H as ->. eauto.
Qed.

Lemma find_overlapping_groups_clustered today enrollments groups :
  NoDup (id <$> enrollments) →
  find_overlapping_groups today enrollments = Ok groups →
  ∃ P, clustered (sorted_by (start_key today) enrollments)
                 (sorted_by (start_key today) enrollments) groups P.
Proof.
  intros Hids Hfind.
  destruct (decide (enrollments = [])) as [->|Hne].
  { injection Hfind as <-. exists ∅. apply clustered_init; constructor. }
  destruct (find_overlapping_groups_run today enrollments groups Hne Hfind)
    as [P Hrun].
  exists P. apply outer_loop_clustered; [|exact Hrun].
  rewrite sorted_by_perm. exact Hids.
Qed.









(** C10. Clustering an empty input returns no groups. *)
Theorem clustering_empty today : find_overlapping_groups today [] = Ok [].
Proof. reflexivity. Qed.

(** ** Order of the members of a group *)

Lemma closed_range_dated e : closed_range e → dated e.
Proof. intros (s & t & Hs & _). unfold dated. rewrite Hs. eauto. Qed.

Lemma overlap_of_closed m x s1 t1 s2 t2 b :
  start_date m = Some s1 → end_date m = Some t1 →
  start_date x = Some s2 → end_date x = Some t2 →
  overlap_of m x = Ok b →
  b = ((s1 <=? t2) && (s2 <=? t1)) || ((t1 + 1 =? s2) || (t2 + 1 =? s1)).
Proof.
  intros H1 H2 H3 H4 Hov. unfold overlap_of in Hov.
  rewrite H1, H2, H3, H4 in Hov.
  apply ranges_overlap_or_adjacent_value in Hov. exact Hov.
Qed.

(** A closed range that starts no earlier than another, and on which the
    predicate returns [False] against it, starts more than a day after its
    end. *)
Lemma clear_gap today m x t :
  closed_range m → closed_range x →
  start_key today m <= start_key today x → overlap_of m x = Ok false →
  end_date m = Some t → t + 1 < start_key today x.
Proof.
  intros (s1 & t1 & Hs1 & Ht1 & Hwf1) (s2 & t2 & Hs2 & Ht2 & Hwf2) Hle Hov Ht.
  apply (overlap_of_closed m x s1 t1 s2 t2) in Hov; try assumption.
  unfold start_key in *. rewrite Hs1, Hs2 in *. simpl in *.
  rewrite Ht1 in Ht. injection Ht as <-. symmetry in Hov.
  apply orb_false_iff in Hov as [Hov1 Hov2].
  apply orb_false_iff in Hov2 as [Hov2 _].
  apply andb_false_iff in Hov1. lia.
Qed.

(** A closed range that conflicts with another starts at most a day after
    its end. *)
Lemma conflict_reach today m x :
  closed_range m → closed_range x → overlap_of m x = Ok true →
  ∃ t, end_date m = Some t ∧ start_key today x <= t + 1.
Proof.
  intros (s1 & t1 & Hs1 & Ht1 & Hwf1) (s2 & t2 & Hs2 & Ht2 & Hwf2) Hov.
  apply (overlap_of_closed m x s1 t1 s2 t2) in Hov; try assumption.
  exists t1. split; [exact Ht1|].
  unfold start_key. rewrite Hs2. simpl. symmetry in Hov.
  apply orb_true_iff in Hov as [Hov|Hov].
  - apply andb_true_iff in Hov. lia.
  - apply orb_true_iff in Hov. lia.
Qed.

Lemma StronglySorted_snoc {A} (R : A → A → Prop) l x :
  StronglySorted R l → (∀ m, m ∈ l → R m x) → StronglySorted R (l ++ [x]).
Proof.
  intros Hl Hx. apply StronglySorted_app. split; [|split; [exact Hl|]].
  - intros a b Ha Hb. apply list_elem_of_singleton in Hb as ->. auto.
  - repeat constructor.
Qed.

Lemma StronglySorted_ascending today g :
  StronglySorted (key_le (start_key today)) g → ascending today g.
Proof.
  induction 1 as [|x l Hs IH Hall]; intros i a b Ha Hb.
  - inversion Ha.
  - destruct i as [|i]; simpl in *.
    + injection Ha as <-. rewrite Forall_forall in Hall. apply Hall.
      eapply list_elem_of_lookup_2. exact Hb.
    + eapply IH; eauto.
Qed.

Section Ordered.
Context (today : Z) (S : list Enrollment).
Context (Hclosed : Forall closed_range S).
Context (Hsorted : StronglySorted (key_le (start_key today)) S).

Lemma closed_in_S x : x ∈ S → closed_range x.
Proof. rewrite Forall_forall in Hclosed. apply Hclosed. Qed.

(** A pass over closed ranges keeps the group in ascending order: once a
    pending record has been passed over, nothing after it is absorbed. *)
Lemma absorb_pass_ordered G P G' P' c :
  Forall closed_range G → ordered_ahead today S G P →
  absorb_pass S G P = Ok (G', P', c) → ordered_ahead today S G' P'.
Proof.
  intros HG [Hss Hahead] Hpass. unfold absorb_pass in Hpass.
  pose proof (for_each_sound absorb_step
    (λ pre st,
       Forall closed_range (st.1).1
       ∧ ordered_ahead today S (st.1).1 (st.1).2
       ∧ (∀ m z t, m ∈ (st.1).1 → z ∈ pre → id z ∉ (st.1).2 →
            end_date m = Some t → t + 1 < start_key today z))
    S (G, P, false) (G', P', c)) as Hinv.
  destruct Hinv as (_ & Hord & _); [| |exact Hpass|exact Hord].
  - simpl. split; [exact HG|]. split; [split; assumption|].
    intros m z t _ Hz. inversion Hz.
  - intros pre x post [[G1 P1] c1] s1 HSeq (HG1 & [Hss1 Hahead1] & Hgap) Hstep.
    simpl in HG1, Hss1, Hahead1, Hgap.
    assert (Hx : x ∈ S) by (rewrite HSeq; set_solver).
    assert (Hcx : closed_range x) by (apply closed_in_S, Hx).
    assert (Hpre : ∀ z, z ∈ pre → start_key today z <= start_key today x).
    { intros z Hz. rewrite HSeq in Hsorted.
      apply (StronglySorted_app_1_elem_of _ _ _ z x Hsorted Hz). left. }
    assert (Hpost : ∀ y, y ∈ post → start_key today x <= start_key today y).
    { intros y Hy. rewrite HSeq in Hsorted.
      apply (sorted_split_le (start_key today) pre x post y Hsorted Hy). }
    apply absorb_step_sound in Hstep
      as [[-> Hwhy] | (Hnew & -> & m0 & Hm0 & Hov)]; simpl.
    + split; [exact HG1|]. split; [split; assumption|].
      intros m z t Hm Hz HzP Ht. apply elem_of_app in Hz as [Hz|Hz]; [eauto|].
      apply list_elem_of_singleton in Hz as ->.
      destruct Hwhy as [Hproc|Hall]; [contradiction|].
      apply (clear_gap today m x t); auto.
      rewrite Forall_forall in HG1. auto.
    + assert (Hcm0 : closed_range m0) by (rewrite Forall_forall in HG1; auto).
      destruct (conflict_reach today m0 x Hcm0 Hcx Hov) as (t0 & Ht0 & Hreach).
      assert (Hnone : ∀ z, z ∈ pre → id z ∉ P1 → False).
      { intros z Hz HzP. specialize (Hgap m0 z t0 Hm0 Hz HzP Ht0).
        specialize (Hpre z Hz). lia. }
      split; [|split; [split|]].
      * apply Forall_app. split; [exact HG1|]. repeat constructor. exact Hcx.
      * apply StronglySorted_snoc; [exact Hss1|].
        intros m Hm. apply Hahead1; auto.
      * intros m y Hm Hy HyP.
        assert (HyP1 : id y ∉ P1) by set_solver.
        apply elem_of_app in Hm as [Hm|Hm]; [auto|].
        apply list_elem_of_singleton in Hm as ->.
        rewrite HSeq in Hy. apply elem_of_app in Hy as [Hy|Hy].
        { exfalso. eauto. }
        apply elem_of_cons in Hy as [->|Hy]; [lia | auto].
      * intros m z t Hm Hz HzP Ht. exfalso.
        assert (HzP1 : id z ∉ P1) by set_solver.
        apply elem_of_app in Hz as [Hz|Hz]; [eauto|].
        apply list_elem_of_singleton in Hz as ->. set_solver.
Qed.

(** On closed ranges every round of the outer loop leaves the groups in
    ascending order of start date. *)
Lemma outer_loop_ordered groups P :
  for_each (group_step S) S ([], ∅) = Ok (groups, P) →
  ∀ g, g ∈ groups → StronglySorted (key_le (start_key today)) g.
Proof.
  intros Hrun.
  pose proof (for_each_sound (group_step S)
              (λ pre st, (∀ x, x ∈ pre → id x ∈ st.2)
                         ∧ ∀ g, g ∈ st.1 →
                             StronglySorted (key_le (start_key today)) g)
              S ([], ∅) (groups, P)) as Hinv.
  destruct Hinv as [_ Hord]; [| |exact Hrun|exact Hord].
  - split; intros x Hx; inversion Hx.
  - intros pre x post [groups1 P1] st HSeq [Hvis Hord] Hstep.
    simpl in Hvis, Hord.
    assert (Hx : x ∈ S) by (rewrite HSeq; set_solver).
    apply (group_step_sound S (ordered_ahead today S)) in Hstep
      as [[Hproc ->] | (Hnew & G & P' & -> & Hgr & [HssG _] & _)].
    + simpl. split; [|exact Hord].
      intros z Hz. apply elem_of_app in Hz as [Hz|Hz]; [auto|].
      apply list_elem_of_singleton in Hz as ->. exact Hproc.
    + destruct (grown_seed S x P1 G P' Hx Hnew Hgr) as (-> & HxG & _).
      simpl. split.
      * intros z Hz. apply elem_of_app in Hz as [Hz|Hz].
        -- apply elem_of_union. right. auto.
        -- apply list_elem_of_singleton in Hz as ->.
           apply elem_of_union. left. apply id_elem_of_ids, HxG.
      * intros g. destruct (1 <? length G)%nat; [|apply Hord].
        intros Hg. apply elem_of_app in Hg as [Hg|Hg]; [apply Hord, Hg|].
        apply list_elem_of_singleton in Hg as ->. exact HssG.
    + intros G Q G' Q' c Hgr. apply absorb_pass_ordered.
      destruct Hgr as (added & -> & _ & Hin & _).
      apply Forall_app. split; [repeat constructor; apply closed_in_S, Hx|].
      apply Forall_forall. intros a Ha. apply closed_in_S, Hin, Ha.
    + split; [repeat constructor|].
      intros m y Hm Hy HyP. apply list_elem_of_singleton in Hm as ->.
      rewrite HSeq in Hy. apply elem_of_app in Hy as [Hy|Hy].
      { exfalso. apply HyP. apply elem_of_union. right. auto. }
      apply elem_of_cons in Hy as [->|Hy]; [lia|].
      rewrite HSeq in Hsorted.
      apply (sorted_split_le (start_key today) pre x post y Hsorted Hy).
Qed.
End Ordered.

(** C6 (as amended). When every record has a start date and an end date
    with start <= end, every group the clusterer returns has its members
    in ascending order of start date.  The clusterer does return groups
    when, in addition, no end date is the last date. *)
Theorem closed_groups_ascending today (enrollments : list Enrollment) :
  Forall closed_range enrollments →
  (∀ groups,
     find_overlapping_groups today enrollments = Ok groups →
     ∀ g, g ∈ groups → ascending today g)
  ∧ (Forall below_max enrollments →
     ∃ groups, find_overlapping_groups today enrollments = Ok groups).
Proof.
  intros Hclosed. split.
  - intros groups Hfind g Hg.
    destruct (decide (enrollments = [])) as [->|Hne].
    { injection Hfind as <-. inversion Hg. }
    destruct (find_overlapping_groups_run today enrollments groups Hne Hfind)
      as [P Hrun].
    apply StronglySorted_ascending.
    apply (outer_loop_ordered today (sorted_by (start_key today) enrollments))
      with (groups := groups) (P := P);
      [|apply sorted_by_sorted|exact Hrun|exact Hg].
    apply Forall_forall. intros x Hx. apply elem_of_sorted_by in Hx.
    rewrite Forall_forall in Hclosed. auto.
  - intros Hb. apply find_overlapping_groups_returns. split; [|exact Hb].
    eapply Forall_impl; [exact Hclosed | apply closed_range_dated].
Qed.

Lemma closed_groups_ascending_witness :
  (∀ groups,
     find_overlapping_groups 0 [R3; R2; R1] = Ok groups →
     ∀ g, g ∈ groups → ascending 0 g)
  ∧ (Forall below_max [R3; R2; R1] →
     ∃ groups, find_overlapping_groups 0 [R3; R2; R1] = Ok groups).
Proof.
  apply (closed_groups_ascending 0 [R3; R2; R1]).
  repeat constructor; unfold closed_range; simpl.
  - exists 18, 25. repeat split; lia.
  - exists 5, 20. repeat split; lia.
  - exists 1, 10. repeat split; lia.
Defined.

(** C6 (as stated) fails: on the well-formed records Q1..Q4 the group comes
    back as Q1, Q3, Q4, Q2, with Q4 (day 13) ahead of Q2 (day 11). *)
Lemma groups_ascending_counterexample :
  ¬ (∀ today enrollments groups g,
       find_overlapping_groups today enrollments = Ok groups →
       g ∈ groups → ascending today g).
Proof.
  intros H.
  assert (Hrun : find_overlapping_groups 0 [Q1; Q2; Q3; Q4]
                 = Ok [[Q1; Q3; Q4; Q2]]) by (vm_compute; reflexivity).
  specialize (H 0 _ _ [Q1; Q3; Q4; Q2] Hrun).
  assert (Hin : [Q1; Q3; Q4; Q2] ∈ [[Q1; Q3; Q4; Q2]]) by left.
  specialize (H Hin 2%nat Q4 Q2 eq_refl eq_refl).
  vm_compute in H. apply H. reflexivity.
Qed.

(** ** The resolver *)

Lemma date_eqb_eq a b : date_eqb a b = true ↔ a = b.
Proof.
  destruct a as [x|], b as [y|]; simpl; split; intros H;
    try discriminate; try reflexivity.
  - apply Z.eqb_eq in H. congruence.
  - injection H as ->. apply Z.eqb_refl.
Qed.

Lemma elem_of_candidates_of x l :
  x ∈ candidates_of l
  ↔ x ∈ l ∧ (is_archived x = false ∨ ∀ y, y ∈ l → is_archived y = true).
Proof.
  unfold candidates_of.
  destruct (filter (λ e, is_archived e = false) l) as [|n na] eqn:Hf.
  - split.
    + intros Hx. split; [exact Hx|]. right. intros y Hy.
      destruct (is_archived y) eqn:Hy'; [reflexivity|].
      assert (Hin : y ∈ filter (λ e, is_archived e = false) l)
        by (apply list_elem_of_filter; auto).
      rewrite Hf in Hin. inversion Hin.
    + intros [Hx _]. exact Hx.
  - rewrite <- Hf, list_elem_of_filter. split.
    + intros [Ha Hx]. auto.
    + intros [Hx [Ha|Hall]]; [auto|].
      assert (Hn : n ∈ filter (λ e, is_archived e = false) l)
        by (rewrite Hf; left).
      apply list_elem_of_filter in Hn as [Hn Hnl].
      rewrite (Hall n Hnl) in Hn. discriminate.
Qed.


Lemma candidates_of_nonempty l : l ≠ [] → candidates_of l ≠ [].
Proof.
  unfold candidates_of. intros Hl.
  destruct (filter _ l); [exact Hl | discriminate].
Qed.

(** The priority-3 loop: the record held at the end was created when the
    initial one was, its score is the running maximum, and no record of the
    list created at that time scores higher. *)
Lemma best_fold C mr best :
  ∃ mr' best',
    foldl best_step (mr, best) C = (mr', best')
    ∧ created_at mr' = created_at mr
    ∧ best <= best'
    ∧ ((mr' = mr ∧ best' = best)
       ∨ (mr' ∈ C ∧ best' = completeness_score mr'))
    ∧ (∀ c, c ∈ C → created_at c = created_at mr →
         completeness_score c <= best').
Proof.
  revert mr best. induction C as [|x C IH]; intros mr best; simpl.
  { exists mr, best. repeat split; try lia; auto. intros c Hc. inversion Hc. }
  destruct (date_eqb (created_at x) (created_at mr)) eqn:Heq.
  - apply date_eqb_eq in Heq.
    destruct (Z.ltb_spec best (completeness_score x)) as [Hlt|Hge].
    + destruct (IH x (completeness_score x))
        as (mr' & best' & Hrun & Hc & Hb & Hor & Hmax).
      exists mr', best'. rewrite Hrun. repeat split; try congruence; try lia.
      * right. destruct Hor as [[-> ->]|[Hin ->]]; split; auto; try left.
        by right.
      * intros c Hc' Hcm. apply elem_of_cons in Hc' as [->|Hc']; [lia|].
        apply Hmax; congruence.
    + destruct (IH mr best) as (mr' & best' & Hrun & Hc & Hb & Hor & Hmax).
      exists mr', best'. rewrite Hrun. repeat split; auto.
      * destruct Hor as [?|[Hin ->]]; [by left|]. right. split; auto. by right.
      * intros c Hc' Hcm. apply elem_of_cons in Hc' as [->|Hc']; [lia|].
        apply Hmax; auto.
  - destruct (IH mr best) as (mr' & best' & Hrun & Hc & Hb & Hor & Hmax).
    exists mr', best'. rewrite Hrun. repeat split; auto.
    + destruct Hor as [?|[Hin ->]]; [by left|]. right. split; auto. by right.
    + intros c Hc' Hcm. apply elem_of_cons in Hc' as [->|Hc']; [|auto].
      apply date_eqb_eq in Hcm. congruence.
Qed.

(** The keys of the descending sort: the records are as they were, and the
    key of a record with a creation timestamp is that timestamp. *)
Lemma created_keys_snd clock n l : snd <$> created_keys clock n l = l.
Proof.
  revert n. induction l as [|e l IH]; intros n; [reflexivity|].
  simpl. destruct (created_at e); simpl; by rewrite IH.
Qed.

Lemma created_keys_stamped clock n l k e t :
  (k, e) ∈ created_keys clock n l → created_at e = Some t → k = t.
Proof.
  revert n. induction l as [|x l IH]; intros n Hin Ht; [inversion Hin|].
  simpl in Hin. destruct (created_at x) as [tx|] eqn:Hx;
    apply elem_of_cons in Hin as [Heq|Hin]; eauto; injection Heq as -> ->;
    congruence.
Qed.



Lemma sorted_by_created_desc_perm clock l : sorted_by_created_desc clock l ≡ₚ l.
Proof.
  unfold sorted_by_created_desc, sorted_by_desc.
  rewrite sorted_by_perm. by rewrite created_keys_snd.
Qed.

Lemma elem_of_sorted_by_created_desc clock x l :
  x ∈ sorted_by_created_desc clock l ↔ x ∈ l.
Proof. by rewrite sorted_by_created_desc_perm. Qed.

(** The record the descending sort puts first was created no earlier than
    any other record, when both carry a timestamp. *)
Lemma sorted_by_created_desc_head clock l mr0 rest c tc tm :
  sorted_by_created_desc clock l = mr0 :: rest → c ∈ l →
  created_at c = Some tc → created_at mr0 = Some tm → tc <= tm.
Proof.
  unfold sorted_by_created_desc, sorted_by_desc. intros Hsort Hc Htc Htm.
  destruct (sorted_by (λ x : Z * Enrollment, - x.1) (created_keys clock 0 l))
    as [|[k0 e0] D] eqn:HD; [discriminate|].
  simpl in Hsort. injection Hsort as -> _.
  assert (Hk0 : k0 = tm).
  { apply (created_keys_stamped clock 0 l k0 mr0 tm); [|exact Htm].
    eapply elem_of_sorted_by. rewrite HD. left. }
  rewrite <- (created_keys_snd clock 0 l) in Hc.
  apply list_elem_of_fmap in Hc as ([k c'] & Heq & Hin). simpl in Heq. subst c'.
  pose proof (created_keys_stamped clock 0 l k c tc Hin Htc) as ->.
  pose proof (sorted_by_head_min (λ x : Z * Enrollment, - x.1) _ _ _ _ HD Hin)
    as Hle.
  simpl in Hle. lia.
Qed.

(** The list the name [candidates] refers to after the in-place sort. *)
Lemma candidates_sorted clock l :
  let non_archived := filter (λ e, is_archived e = false) l in
  let candidates :=
    match non_archived with [] => ref_enrollments | _ => ref_non_archived end in
  deref candidates
    (sort_desc_in_place clock candidates (mkStore l non_archived))
  = sorted_by_created_desc clock (candidates_of l).
Proof.
  unfold candidates_of. simpl.
  destruct (filter (λ e, is_archived e = false) l); reflexivity.
Qed.

(** The outcome of the resolver on a cluster that is not a single record,
    with the store left out. *)
Lemma select_best_result today clock l :
  length l ≠ 1%nat →
  (select_best_enrollment today clock l).1
  = match sorted_by_created_desc clock (candidates_of l) with
    | [] => Raise IndexError
    | most_recent0 :: _ =>
        let '(most_recent, best_score) :=
          foldl best_step (most_recent0, completeness_score most_recent0)
            (sorted_by_created_desc clock (candidates_of l)) in
        match sorted_by (start_key today)
                (filter (λ e, date_eqb (created_at e) (created_at most_recent)
                              = true
                              ∧ completeness_score e = best_score)
                   (sorted_by_created_desc clock (candidates_of l))) with
        | [] => Ok most_recent
        | first :: _ => Ok first
        end
    end.
Proof.
  intros Hmany.
  destruct l as [|e [|e' l']]; [reflexivity | simpl in Hmany; lia |].
  pose proof (candidates_sorted clock (e :: e' :: l')) as HC. cbv zeta in HC.
  unfold select_best_enrollment. cbv zeta. rewrite HC. clear HC.
  destruct (sorted_by_created_desc clock (candidates_of _)) as [|mr0 rest];
    [reflexivity|].
  destruct (foldl best_step _ _) as [mr best].
  destruct (sorted_by (start_key today) _); reflexivity.
Qed.

(** On a non-empty cluster the resolver returns a record, and that record
    is [chosen], whatever the clock reads. *)
Lemma select_best_chosen today clock l :
  l ≠ [] → ∃ r, (select_best_enrollment today clock l).1 = Ok r
                ∧ chosen today l r.
Proof.
  intros Hl.
  destruct (decide (length l = 1%nat)) as [Hone|Hmany].
  { destruct l as [|e [|? ?]]; try discriminate. exists e. split; [reflexivity|].
    assert (Hc : ∀ c, c ∈ candidates_of [e] → c = e).
    { intros c Hc. apply elem_of_candidates_of in Hc as [Hc _].
      by apply list_elem_of_singleton in Hc. }
    assert (He : e ∈ candidates_of [e]).
    { apply elem_of_candidates_of. split; [left|].
      destruct (is_archived e) eqn:Ha; [right|by left].
      intros y Hy. apply list_elem_of_singleton in Hy as ->. exact Ha. }
    exists e. repeat split; auto.
    - intros c tc tm Hcc Htc Htm. rewrite (Hc c Hcc) in Htc.
      assert (tc = tm) by congruence. lia.
    - intros c Hcc _. rewrite (Hc c Hcc). lia.
    - intros c Hcc _ _. rewrite (Hc c Hcc). lia. }
  set (C := sorted_by_created_desc clock (candidates_of l)).
  assert (HCel : ∀ x, x ∈ C ↔ x ∈ candidates_of l).
  { intros x. unfold C. apply elem_of_sorted_by_created_desc. }
  rewrite (select_best_result today clock l Hmany). fold C.
  destruct C as [|mr0 rest] eqn:HCeq.
  { exfalso. apply (candidates_of_nonempty l Hl).
    apply Permutation_nil_r. rewrite <- HCeq. unfold C.
    symmetry. apply sorted_by_created_desc_perm. }
  rewrite <- HCeq in *.
  assert (Hmr0 : mr0 ∈ C) by (rewrite HCeq; left).
  assert (Hmax : ∀ c tc tm, c ∈ candidates_of l → created_at c = Some tc →
                   created_at mr0 = Some tm → tc <= tm).
  { intros c tc tm Hc.
    apply (sorted_by_created_desc_head clock (candidates_of l) mr0 rest c tc tm);
      assumption. }
  destruct (best_fold C mr0 (completeness_score mr0))
    as (mr & best & Hrun & Hcmr & Hb & Hor & Hbest).
  rewrite Hrun.
  assert (Hmr : mr ∈ C ∧ best = completeness_score mr).
  { destruct Hor as [[-> ->]|?]; auto. }
  destruct Hmr as [HmrC ->].
  set (same := filter (λ e, date_eqb (created_at e) (created_at mr) = true
                            ∧ completeness_score e = completeness_score mr) C).
  assert (Hmrsame : mr ∈ same).
  { apply list_elem_of_filter. split; [|exact HmrC].
    split; [apply date_eqb_eq|]; reflexivity. }
  cbv zeta.
  destruct (sorted_by (start_key today) same) as [|first t] eqn:Hsort.
  { apply sorted_by_nil in Hsort. rewrite Hsort in Hmrsame. inversion Hmrsame. }
  exists first. split; [reflexivity|].
  pose proof (sorted_by_head_elem _ _ _ _ Hsort) as Hfirst.
  apply list_elem_of_filter in Hfirst as [[Hfc Hfs] HfC].
  apply date_eqb_eq in Hfc.
  exists mr0. split; [apply HCel, Hmr0|]. split; [exact Hmax|].
  split; [apply HCel, HfC|]. split; [congruence|]. split.
  - intros c Hc Hcm. rewrite Hfs. apply Hbest; [apply HCel, Hc | exact Hcm].
  - intros c Hc Hcm Hcs.
    apply (sorted_by_head_min (start_key today) same first t c Hsort).
    apply list_elem_of_filter. split; [|apply HCel, Hc].
    split; [apply date_eqb_eq|]; congruence.
Qed.

(** What the caller's list holds after the call: the in-place sort reaches
    it exactly when no record is non-archived. *)
Lemma select_best_store today clock l :
  (select_best_enrollment today clock l).2
  = if decide (length l = 1%nat) then l
    else match filter (λ e, is_archived e = false) l with
         | [] => sorted_by_created_desc clock l
         | _ => l
         end.
Proof.
  destruct l as [|e [|e' l']]; [reflexivity | reflexivity |].
  rewrite decide_False by (simpl; lia).
  unfold select_best_enrollment. cbv zeta.
  destruct (deref _ _) as [|mr0 rest].
  - simpl. destruct (filter _ (e :: e' :: l')); reflexivity.
  - destruct (foldl best_step _ _) as [mr best].
    destruct (sorted_by (start_key today) _); simpl;
      destruct (filter _ (e :: e' :: l')); reflexivity.
Qed.




(** C3 (as amended). A cluster of fewer than two records raises no input
    error in the resolver: a single record is returned as it is (an empty
    list runs into [IndexError] at [candidates[0]]), the list is left
    unchanged, and [remove_duplicate_group] answers [None] for such a
    group. *)
Theorem small_cluster_handling today clock (group : list Enrollment) :
  (length group ≤ 1)%nat →
  select_best_enrollment today clock group
  = (match group with [] => Raise IndexError | only :: _ => Ok only end, group)
  ∧ remove_duplicate_group_dry_run today clock group = Ok None.
Proof.
  intros Hlen. destruct group as [|e [|e' rest]]; simpl in Hlen; try lia.
  - split; reflexivity.
  - split; reflexivity.
Qed.

Lemma small_cluster_handling_witness :
  select_best_enrollment 0 (λ _, 0) [R2] = (Ok R2, [R2])
  ∧ remove_duplicate_group_dry_run 0 (λ _, 0) [R2] = Ok None.
Proof. apply (small_cluster_handling 0 (λ _, 0) [R2]). simpl. lia. Defined.

(** C3 (as stated) fails: the resolver returns the record of a one-record
    cluster instead of raising. *)
Lemma small_cluster_counterexample :
  ¬ (∀ today clock (group : list Enrollment),
       (length group < 2)%nat →
       ∃ e, (select_best_enrollment today clock group).1 = Raise e).
Proof.
  intros H. destruct (H 0 (λ _, 0) [R2]) as [e He]; [simpl; lia|].
  vm_compute in He. discriminate.
Qed.




(** C8. The resolver does not leave its input alone: on the two archived
    records Z1, Z2 the caller's list comes back as Z2, Z1, whatever the
    date and the clock. *)
Theorem resolver_reorders_archived_input today clock :
  select_best_enrollment today clock [Z1; Z2] = (Ok Z2, [Z2; Z1]).
Proof. reflexivity. Qed.

(** * Further results on the commands *)

(** ** The overlap predicate *)

(** X1. Two closed well-formed ranges that end before the last date
    conflict exactly when neither starts more than one day after the other
    ends. *)
Theorem closed_ranges_conflict_iff (s1 e1 s2 e2 : Z) :
  s1 <= e1 → s2 <= e2 → e1 < date_max → e2 < date_max →
  ranges_overlap_or_adjacent (Some s1) (Some e1) (Some s2) (Some e2)
  = Ok (bool_decide (s2 <= e1 + 1 ∧ s1 <= e2 + 1)).
Proof.
  intros H1 H2 Hb1 Hb2.
  rewrite ranges_overlap_or_adjacent_dated by assumption. f_equal. simpl.
  case_bool_decide as Hd.
  - destruct Hd as [Ha Hb].
    destruct (Z.leb_spec s1 e2), (Z.leb_spec s2 e1),
             (Z.eqb_spec (e1 + 1) s2), (Z.eqb_spec (e2 + 1) s1);
      simpl; try reflexivity; lia.
  - destruct (Z.leb_spec s1 e2), (Z.leb_spec s2 e1),
             (Z.eqb_spec (e1 + 1) s2), (Z.eqb_spec (e2 + 1) s1);
      simpl; try reflexivity; exfalso; apply Hd; lia.
Qed.

Lemma closed_ranges_conflict_iff_witness :
  ranges_overlap_or_adjacent (Some 1) (Some 15) (Some 16) (Some 30)
  = Ok (bool_decide (16 <= 15 + 1 ∧ 1 <= 30 + 1)).
Proof.
  apply (closed_ranges_conflict_iff 1 15 16 30); unfold date_max; lia.
Defined.

(** X2. An open-ended range conflicts with a closed well-formed range
    exactly when the closed range ends on or after the day the open-ended
    one starts, in either argument order: there is no one-day allowance
    towards an open-ended range. *)
Theorem open_ended_conflict_iff (s1 s2 e2 : Z) :
  s2 <= e2 →
  ranges_overlap_or_adjacent (Some s1) None (Some s2) (Some e2)
  = Ok (s1 <=? e2)
  ∧ ranges_overlap_or_adjacent (Some s2) (Some e2) (Some s1) None
    = Ok (s1 <=? e2).
Proof.
  intros H. simpl.
  destruct (Z.leb_spec s1 s2), (Z.leb_spec s1 e2); simpl;
    split; try reflexivity; lia.
Qed.

Lemma open_ended_conflict_iff_witness :
  ranges_overlap_or_adjacent (Some 11) None (Some 1) (Some 10) = Ok (11 <=? 10)
  ∧ ranges_overlap_or_adjacent (Some 1) (Some 10) (Some 11) None
    = Ok (11 <=? 10).
Proof. apply (open_ended_conflict_iff 11 1 10). lia. Defined.

(** X3. The overlap predicate returns [True] on two open-ended ranges even
    without start dates.  Otherwise it returns a boolean or fails in one
    of two ways: it raises [TypeError], only when a start date is missing
    and at least one end date is present; or it raises [OverflowError],
    only when both end dates are present and one of them is the last
    date. *)
Theorem overlap_failure_mode (s1 e1 s2 e2 : option Z) :
  ranges_overlap_or_adjacent s1 None s2 None = Ok true
  ∧ ((∃ b, ranges_overlap_or_adjacent s1 e1 s2 e2 = Ok b)
     ∨ (ranges_overlap_or_adjacent s1 e1 s2 e2 = Raise TypeError
        ∧ (s1 = None ∨ s2 = None) ∧ (is_Some e1 ∨ is_Some e2))
     ∨ (ranges_overlap_or_adjacent s1 e1 s2 e2 = Raise OverflowError
        ∧ ∃ t1 t2, e1 = Some t1 ∧ e2 = Some t2
                   ∧ (date_max <= t1 ∨ date_max <= t2))).
Proof. split; [reflexivity | apply overlap_outcome]. Qed.

(** X25. Away from the last date the overlap predicate is symmetric: on
    two ranges with start dates whose end dates, if any, are before
    9999-12-31, both copies of the predicate return a boolean, the same in
    the two argument orders. *)
Theorem overlap_symmetric_before_max (s1 : Z) (e1 : option Z) (s2 : Z)
    (e2 : option Z) :
  before_max e1 → before_max e2 →
  ∃ b,
    RemoveDuplicacy.ranges_overlap_or_adjacent (Some s1) e1 (Some s2) e2 = Ok b
    ∧ RemoveDuplicacy.ranges_overlap_or_adjacent (Some s2) e2 (Some s1) e1
      = Ok b
    ∧ ListMultipleEnrollments.ranges_overlap_or_adjacent
        (Some s1) e1 (Some s2) e2 = Ok b
    ∧ ListMultipleEnrollments.ranges_overlap_or_adjacent
        (Some s2) e2 (Some s1) e1 = Ok b.
Proof.
  intros H1 H2. exists (overlapb s1 e1 s2 e2).
  assert (Hab : ranges_overlap_or_adjacent (Some s1) e1 (Some s2) e2
                = Ok (overlapb s1 e1 s2 e2))
    by (apply ranges_overlap_or_adjacent_dated; assumption).
  assert (Hba : ranges_overlap_or_adjacent (Some s2) e2 (Some s1) e1
                = Ok (overlapb s1 e1 s2 e2)).
  { rewrite (overlapb_sym s1). apply ranges_overlap_or_adjacent_dated; assumption. }
  repeat split; assumption.
Qed.

Lemma overlap_symmetric_before_max_witness :
  ∃ b,
    RemoveDuplicacy.ranges_overlap_or_adjacent
      (Some 1) (Some 15) (Some 16) None = Ok b
    ∧ RemoveDuplicacy.ranges_overlap_or_adjacent
        (Some 16) None (Some 1) (Some 15) = Ok b
    ∧ ListMultipleEnrollments.ranges_overlap_or_adjacent
        (Some 1) (Some 15) (Some 16) None = Ok b
    ∧ ListMultipleEnrollments.ranges_overlap_or_adjacent
        (Some 16) None (Some 1) (Some 15) = Ok b.
Proof.
  apply (overlap_symmetric_before_max 1 (Some 15) 16 None).
  - unfold before_max, date_max. lia.
  - exact I.
Defined.

(** X26. Away from the last date the overlap predicate is reflexive: a
    range with no end date, or with start <= end and the end before
    9999-12-31, overlaps itself. *)
Theorem overlap_reflexive_before_max (s : Z) (e : option Z) :
  match e with None => True | Some t => s <= t ∧ t < date_max end →
  RemoveDuplicacy.ranges_overlap_or_adjacent (Some s) e (Some s) e = Ok true
  ∧ ListMultipleEnrollments.ranges_overlap_or_adjacent (Some s) e (Some s) e
    = Ok true.
Proof.
  intros Hwf.
  assert (H : ranges_overlap_or_adjacent (Some s) e (Some s) e = Ok true);
    [|split; exact H].
  destruct e as [t|]; [|reflexivity]. destruct Hwf as [Hle Hlt].
  rewrite ranges_overlap_or_adjacent_dated by exact Hlt. simpl.
  apply Z.leb_le in Hle. rewrite Hle. reflexivity.
Qed.

Lemma overlap_reflexive_before_max_witness :
  RemoveDuplicacy.ranges_overlap_or_adjacent (Some 5) (Some 9) (Some 5) (Some 9)
  = Ok true
  ∧ ListMultipleEnrollments.ranges_overlap_or_adjacent
      (Some 5) (Some 9) (Some 5) (Some 9)
    = Ok true.
Proof.
  apply (overlap_reflexive_before_max 5 (Some 9)). unfold date_max. lia.
Defined.

(** ** The clusterer on arbitrary input *)

(** X4. On every input the clusterer returns groups or fails in one of two
    ways: it raises [TypeError], only if some record has no start date, or
    [OverflowError], only if some record ends on the last date; the budget
    of passes of the inner loop is never used up.  In particular it returns
    groups when every record has a start date and none ends on the last
    date. *)
Theorem clusterer_outcome today (enrollments : list Enrollment) :
  (∃ groups, find_overlapping_groups today enrollments = Ok groups)
  ∨ (find_overlapping_groups today enrollments = Raise TypeError
     ∧ ¬ Forall dated enrollments)
  ∨ (find_overlapping_groups today enrollments = Raise OverflowError
     ∧ ¬ Forall below_max enrollments).
Proof.
  pose proof (find_overlapping_groups_outcome
                (λ e, e = TypeError ∨ e = OverflowError) today enrollments
                (λ x y _ _, overlap_of_raises x y)) as Hout.
  destruct (find_overlapping_groups today enrollments) as [groups|e|] eqn:Hfind;
    simpl in Hout; [left; eauto| |contradiction].
  right. destruct Hout as [->| ->]; [left | right]; (split; [reflexivity|]).
  - intros Hd. rewrite Forall_forall in Hd.
    pose proof (find_overlapping_groups_outcome
                  (λ e, e = OverflowError) today enrollments
                  (λ x y Hx Hy, overlap_of_raises_dated x y (Hd x Hx) (Hd y Hy)))
      as Hout.
    rewrite Hfind in Hout. simpl in Hout. discriminate.
  - intros Hb. rewrite Forall_forall in Hb.
    pose proof (find_overlapping_groups_outcome
                  (λ e, e = TypeError) today enrollments
                  (λ x y Hx Hy, overlap_of_raises_below x y (Hb x Hx) (Hb y Hy)))
      as Hout.
    rewrite Hfind in Hout. simpl in Hout. discriminate.
Qed.

(** X5. A single record is never compared with anything: the clusterer
    returns no group for it, whatever its dates. *)
Theorem clusterer_single_record today (e : Enrollment) :
  find_overlapping_groups today [e] = Ok [].
Proof.
  unfold find_overlapping_groups. simpl.
  rewrite decide_False by set_solver. simpl.
  unfold absorb_pass. simpl.
  rewrite decide_True by set_solver. reflexivity.
Qed.

(** ** Groups are chains of conflicts *)

Lemma linked_singleton e : linked [e].
Proof. intros i x Hx. destruct i; discriminate. Qed.

Lemma linked_snoc G x :
  linked G → (∃ m, m ∈ G ∧ ovb m x = true) → linked (G ++ [x]).
Proof.
  intros HG (m & Hm & Hov) i z Hz.
  destruct (decide (Datatypes.S i < length G)%nat) as [Hlt|Hge].
  - rewrite lookup_app_l in Hz by exact Hlt.
    destruct (HG i z Hz) as (j & y & Hj & Hy & Hyz).
    exists j, y. split; [exact Hj|]. split; [|exact Hyz].
    apply lookup_app_l_Some. exact Hy.
  - pose proof (lookup_lt_Some _ _ _ Hz) as Hlen.
    rewrite length_app in Hlen. simpl in Hlen.
    assert (Datatypes.S i = length G) as Heq by lia.
    rewrite lookup_app_r in Hz by lia.
    replace (Datatypes.S i - length G)%nat with 0%nat in Hz by lia.
    injection Hz as <-.
    apply list_elem_of_lookup in Hm as [j Hj].
    pose proof (lookup_lt_Some _ _ _ Hj).
    exists j, m. split; [lia|]. split; [|exact Hov].
    apply lookup_app_l_Some. exact Hj.
Qed.


Lemma absorb_pass_linked S G P G' P' c :
  linked G → absorb_pass S G P = Ok (G', P', c) → linked G'.
Proof.
  intros Hl Hpass. unfold absorb_pass in Hpass.
  apply (for_each_sound absorb_step (λ _ st, linked (st.1).1)
           S (G, P, false) (G', P', c)); [exact Hl| |exact Hpass].
  intros pre x post [[G1 P1] c1] s1 HSeq Hl1 Hstep. simpl in Hl1.
  apply absorb_step_sound in Hstep
    as [[-> _] | (_ & -> & m0 & Hm0 & Hov)]; simpl; [exact Hl1|].
  apply linked_snoc; [exact Hl1|]. exists m0. split; [exact Hm0|].
  apply ovb_true, Hov.
Qed.

Lemma find_overlapping_groups_linked today l groups :
  find_overlapping_groups today l = Ok groups → ∀ g, g ∈ groups → linked g.
Proof.
  intros Hfind. destruct (decide (l = [])) as [->|Hne].
  { injection Hfind as <-. intros g Hg. inversion Hg. }
  destruct (find_overlapping_groups_run today l groups Hne Hfind) as [P Hrun].
  set (S := sorted_by (start_key today) l) in *.
  apply (for_each_sound (group_step S)
           (λ _ st, ∀ g, g ∈ st.1 → linked g) S ([], ∅) (groups, P));
    [| |exact Hrun].
  - intros g Hg. inversion Hg.
  - intros pre x post [groups1 P1] st HSeq Hl Hstep. simpl in Hl.
    apply (group_step_sound S (λ G _, linked G)) in Hstep
      as [[_ ->] | (_ & G & P' & -> & _ & HlG & _)]; simpl.
    + exact Hl.
    + intros g. destruct (1 <? length G)%nat; [|apply Hl].
      intros Hg. apply elem_of_app in Hg as [Hg|Hg]; [apply Hl, Hg|].
      apply list_elem_of_singleton in Hg as ->. exact HlG.
    + intros G Q G' Q' c _. apply absorb_pass_linked.
    + apply linked_singleton.
Qed.

(** X6. Every group the clusterer returns is a chain: each member but the
    first conflicts with a member listed before it, so no group holds a
    record that conflicts with none of the others.  (The clusterer returns
    groups when every record has a start date and none ends on the last
    date.) *)
Theorem groups_are_linked today (enrollments : list Enrollment) :
  (∀ groups,
     find_overlapping_groups today enrollments = Ok groups →
     ∀ g (i : nat) x, g ∈ groups → g !! S i = Some x →
       ∃ (j : nat) y, (j ≤ i)%nat ∧ g !! j = Some y
                      ∧ overlap_of y x = Ok true)
  ∧ (comparable enrollments →
     ∃ groups, find_overlapping_groups today enrollments = Ok groups).
Proof.
  split; [|apply find_overlapping_groups_returns].
  intros groups Hfind g i x Hg Hx.
  destruct (find_overlapping_groups_linked today enrollments groups Hfind
              g Hg i x Hx) as (j & y & Hj & Hy & Hov).
  exists j, y. split; [exact Hj|]. split; [exact Hy|]. apply ovb_true, Hov.
Qed.

(** ** Groups are the connected components *)

Lemma conflict_sym l a b : conflict l a b → conflict l b a.
Proof. intros (Ha & Hb & Hov). repeat split; auto. tauto. Qed.

Lemma connected_sym l a b : connected l a b → connected l b a.
Proof.
  induction 1 as [|a b c Hab _ IH]; [constructor|].
  eapply rtc_r; [exact IH|]. apply conflict_sym; assumption.
Qed.

Lemma connected_perm l l' a b : l ≡ₚ l' → connected l a b → connected l' a b.
Proof.
  intros Hp. apply rtc_subrel. intros x y (Hx & Hy & Hov).
  repeat split; auto; by rewrite <- Hp.
Qed.

(** In a chain every member is connected to the first one. *)
Lemma linked_connected l g e :
  linked g → (∀ m, m ∈ g → m ∈ l) → g !! 0%nat = Some e →
  ∀ (i : nat) m, g !! i = Some m → connected l e m.
Proof.
  intros Hl Hin He i. induction i as [i IH] using lt_wf_ind. intros m Hm.
  destruct i as [|i].
  - rewrite He in Hm. injection Hm as <-. constructor.
  - destruct (Hl i m Hm) as (j & y & Hj & Hy & Hov).
    eapply rtc_r; [apply (IH j); [lia | exact Hy]|].
    repeat split; auto; apply Hin; eapply list_elem_of_lookup_2; eauto.
Qed.

Lemma NoDup_concat_member {A} (gs : list (list A)) g :
  NoDup (concat gs) → g ∈ gs → NoDup g.
Proof.
  induction gs as [|h gs IH]; intros Hnd Hg; [inversion Hg|].
  simpl in Hnd. apply NoDup_app in Hnd as (Hh & _ & Hrest).
  apply elem_of_cons in Hg as [->|Hg]; auto.
Qed.

(** What holds of the groups the clusterer returns on records with
    distinct ids, in terms of the input list. *)
Lemma cluster_facts today l groups :
  NoDup (id <$> l) → find_overlapping_groups today l = Ok groups →
  NoDup (concat groups)
  ∧ (∀ g, g ∈ groups →
       linked g ∧ (2 ≤ length g)%nat ∧ ∀ m, m ∈ g → m ∈ l)
  ∧ (∀ x y, x ∈ l → y ∈ l → x ≠ y → ovb x y = true →
       same_group groups x y).
Proof.
  intros Hids Hfind.
  destruct (find_overlapping_groups_clustered today l groups Hids Hfind)
    as (P & Ha & Hb & Hc & _ & He & Hf & _).
  pose proof (find_overlapping_groups_linked today l groups Hfind) as Hl.
  split; [apply (NoDup_fmap_1 id), Hb|]. split.
  - intros g Hg. split; [auto|]. split; [auto|].
    intros m Hm. eapply elem_of_sorted_by. apply Hc.
    apply elem_of_concat. eauto.
  - intros x y Hx Hy Hne Hov. apply ovb_true in Hov.
    apply He; auto; try (apply elem_of_sorted_by; assumption);
      apply Ha, elem_of_sorted_by; assumption.
Qed.

Lemma same_group_sym (groups : list (list Enrollment)) x y :
  same_group groups x y → same_group groups y x.
Proof. intros (g & Hg & Hx & Hy). exists g. auto. Qed.

Lemma same_group_trans (groups : list (list Enrollment)) x y z :
  NoDup (concat groups) →
  same_group groups x y → same_group groups y z → same_group groups x z.
Proof.
  intros Hnd (g1 & Hg1 & Hx & Hy) (g2 & Hg2 & Hy' & Hz).
  assert (g1 = g2) as <- by (apply (NoDup_concat_same_group groups g1 g2 y); auto).
  exists g1. auto.
Qed.

(** Two records that conflict, in one order or the other, share a group. *)
Lemma conflict_same_group today l groups x y :
  NoDup (id <$> l) → find_overlapping_groups today l = Ok groups →
  x ≠ y → conflict l x y → same_group groups x y.
Proof.
  intros Hids Hfind Hne (Hx & Hy & Hov).
  destruct (cluster_facts today l groups Hids Hfind) as (_ & _ & Hsame).
  destruct Hov as [Hov|Hov]; [auto|].
  apply same_group_sym. auto.
Qed.

(** A member of a group of two or more has a conflicting partner. *)
Lemma linked_partner l g x :
  linked g → NoDup g → (2 ≤ length g)%nat →
  (∀ m, m ∈ g → m ∈ l) → x ∈ g → ∃ z, z ≠ x ∧ conflict l x z.
Proof.
  intros Hl Hnd Hlen Hin Hx.
  apply list_elem_of_lookup in Hx as [i Hi].
  assert (Hmem : ∀ (k : nat) m, g !! k = Some m → m ∈ l).
  { intros k m Hk. apply Hin. eapply list_elem_of_lookup_2; eauto. }
  destruct i as [|i].
  - destruct (lookup_lt_is_Some_2 g 1) as [z Hz]; [lia|].
    destruct (Hl 0%nat z Hz) as (j & y & Hj & Hy & Hov).
    assert (j = 0%nat) as -> by lia.
    assert (y = x) as -> by congruence.
    exists z. split.
    + intros ->. pose proof (NoDup_lookup g 0 1 x Hnd Hi Hz). discriminate.
    + repeat split; eauto.
  - destruct (Hl i x Hi) as (j & y & Hj & Hy & Hov).
    exists y. split.
    + intros ->. pose proof (NoDup_lookup g j (Datatypes.S i) x Hnd Hy Hi). lia.
    + repeat split; eauto.
Qed.

(** Two records share a group exactly when a chain of conflicts joins them
    and the first has a conflicting partner. *)
Lemma same_group_iff today l groups x y :
  NoDup (id <$> l) →
  find_overlapping_groups today l = Ok groups →
  same_group groups x y
  ↔ connected l x y ∧ ∃ z, z ≠ x ∧ conflict l x z.
Proof.
  intros Hids Hfind.
  destruct (cluster_facts today l groups Hids Hfind) as (Hnd & Hg & Hsame).
  split.
  - intros (g & Hgin & Hx & Hy).
    destruct (Hg g Hgin) as (Hl & Hlen & Hin).
    split.
    + destruct (lookup_lt_is_Some_2 g 0) as [e He]; [lia|].
      apply list_elem_of_lookup in Hx as [i Hi].
      apply list_elem_of_lookup in Hy as [j Hj].
      transitivity e.
      * apply connected_sym.
        apply (linked_connected l g e Hl Hin He i x Hi).
      * apply (linked_connected l g e Hl Hin He j y Hj).
    + apply (linked_partner l g x); auto.
      apply (NoDup_concat_member groups); auto.
  - intros [Hconn (z & Hne & Hxz)].
    assert (Hxx : same_group groups x x).
    { destruct (conflict_same_group today l groups x z Hids Hfind
                  ltac:(congruence) Hxz) as (g & ? & ? & ?).
      exists g. auto. }
    clear z Hne Hxz. induction Hconn as [|x y z Hxy _ IH]; [exact Hxx|].
    destruct (decide (x = y)) as [->|Hne]; [auto|].
    pose proof (conflict_same_group today l groups x y Hids Hfind Hne Hxy)
      as Hs.
    apply (same_group_trans groups x y z Hnd Hs). apply IH.
    destruct Hs as (g & ? & ? & ?). exists g. auto.
Qed.

(** X7. On records with distinct ids the groups the clusterer returns are
    the connected components of the conflict relation that have more than
    one record: two distinct input records lie in one returned group
    exactly when a chain of input records joins them in which each record
    conflicts with the next, in one argument order or the other.  (The
    clusterer returns groups when every record has a start date and none
    ends on the last date.) *)
Theorem groups_are_components today (enrollments : list Enrollment) :
  NoDup (id <$> enrollments) →
  (∀ groups,
     find_overlapping_groups today enrollments = Ok groups →
     ∀ x y, x ≠ y →
       ((∃ g, g ∈ groups ∧ x ∈ g ∧ y ∈ g) ↔ connected enrollments x y))
  ∧ (comparable enrollments →
     ∃ groups, find_overlapping_groups today enrollments = Ok groups).
Proof.
  intros Hids. split; [|apply find_overlapping_groups_returns].
  intros groups Hfind x y Hne.
  pose proof (same_group_iff today enrollments groups x y Hids Hfind) as Hiff.
  unfold same_group in Hiff. rewrite Hiff. split; [intros [? _]; assumption|].
  intros Hconn. split; [exact Hconn|].
  inversion Hconn as [|? z ? Hxz Hrest]; subst; [contradiction|].
  destruct (decide (z = x)) as [->|Hzx]; [|eauto].
  destruct Hxz as (Hx & _ & Hov).
  clear Hconn. induction Hrest as [|a b c Hab Hbc IH]; [contradiction|].
  destruct (decide (b = a)) as [->|Hba]; [auto|]. eauto.
Qed.

Lemma groups_are_components_witness :
  (∀ groups,
     find_overlapping_groups 0 [R1; R2; R3] = Ok groups →
     ∀ x y, x ≠ y →
       ((∃ g, g ∈ groups ∧ x ∈ g ∧ y ∈ g) ↔ connected [R1; R2; R3] x y))
  ∧ (comparable [R1; R2; R3] →
     ∃ groups, find_overlapping_groups 0 [R1; R2; R3] = Ok groups).
Proof.
  apply (groups_are_components 0 [R1; R2; R3]).
  apply (bool_decide_unpack _). vm_compute. exact I.
Defined.

Lemma same_group_perm today l l' groups groups' x y :
  l ≡ₚ l' → NoDup (id <$> l) →
  find_overlapping_groups today l = Ok groups →
  find_overlapping_groups today l' = Ok groups' →
  same_group groups x y → same_group groups' x y.
Proof.
  intros Hp Hids Hfind Hfind' Hs.
  assert (Hids' : NoDup (id <$> l')) by (rewrite <- Hp; exact Hids).
  apply (same_group_iff today l groups x y Hids Hfind) in Hs
    as [Hconn (z & Hne & Hx & Hz & Hov)].
  apply (same_group_iff today l' groups' x y Hids' Hfind').
  split; [apply (connected_perm l l'); assumption|].
  exists z. split; [exact Hne|]. repeat split; auto; by rewrite <- Hp.
Qed.

Lemma groups_match today l l' groups groups' g :
  l ≡ₚ l' → NoDup (id <$> l) →
  find_overlapping_groups today l = Ok groups →
  find_overlapping_groups today l' = Ok groups' →
  g ∈ groups → ∃ g', g' ∈ groups' ∧ g ≡ₚ g'.
Proof.
  intros Hp Hids Hfind Hfind' Hg.
  assert (Hids' : NoDup (id <$> l')) by (rewrite <- Hp; exact Hids).
  destruct (cluster_facts today l groups Hids Hfind) as (Hnd & Hfacts & _).
  destruct (cluster_facts today l' groups' Hids' Hfind') as (Hnd' & _).
  destruct (Hfacts g Hg) as (_ & Hlen & _).
  destruct g as [|x g0] eqn:Hgeq; [simpl in Hlen; lia|]. rewrite <- Hgeq in *.
  assert (Hx : x ∈ g) by (rewrite Hgeq; left).
  assert (Hxx : same_group groups x x) by (exists g; auto).
  destruct (same_group_perm today l l' groups groups' x x Hp Hids Hfind Hfind' Hxx)
    as (g' & Hg' & Hx' & _).
  exists g'. split; [exact Hg'|].
  apply NoDup_Permutation.
  - apply (NoDup_concat_member groups); assumption.
  - apply (NoDup_concat_member groups'); assumption.
  - intros y. split; intros Hy.
    + assert (Hs : same_group groups x y) by (exists g; auto).
      apply (same_group_perm today l l' groups groups' x y Hp Hids Hfind Hfind')
        in Hs as (g2 & Hg2 & Hx2 & Hy2).
      by rewrite (NoDup_concat_same_group groups' g' g2 x Hnd' Hg' Hg2 Hx' Hx2).
    + assert (Hs : same_group groups' x y) by (exists g'; auto).
      apply (same_group_perm today l' l groups' groups x y (symmetry Hp)
               Hids' Hfind' Hfind) in Hs as (g2 & Hg2 & Hx2 & Hy2).
      by rewrite (NoDup_concat_same_group groups g g2 x Hnd Hg Hg2 Hx Hx2).
Qed.

(** X8. On records with distinct ids the grouping does not depend on the
    order of the input: when the clusterer returns groups on a list and on
    a permutation of it, the groups have the same members (each group of
    one run is a rearrangement of a group of the other).  It returns groups
    on both when every record has a start date and none ends on the last
    date. *)
Theorem grouping_order_independent today (l l' : list Enrollment) :
  l ≡ₚ l' → NoDup (id <$> l) →
  (∀ groups groups',
     find_overlapping_groups today l = Ok groups →
     find_overlapping_groups today l' = Ok groups' →
     (∀ g, g ∈ groups → ∃ g', g' ∈ groups' ∧ g ≡ₚ g')
     ∧ (∀ g', g' ∈ groups' → ∃ g, g ∈ groups ∧ g' ≡ₚ g))
  ∧ (comparable l →
     ∃ groups groups',
       find_overlapping_groups today l = Ok groups
       ∧ find_overlapping_groups today l' = Ok groups').
Proof.
  intros Hp Hids.
  assert (Hids' : NoDup (id <$> l')) by (rewrite <- Hp; exact Hids).
  split.
  - intros groups groups' Hfind Hfind'. split.
    + intros g. apply (groups_match today l l'); assumption.
    + intros g'. apply (groups_match today l' l); auto. symmetry. exact Hp.
  - intros Hc.
    assert (Hc' : comparable l').
    { destruct Hc as [Hd Hb]. split; rewrite <- Hp; assumption. }
    destruct (find_overlapping_groups_returns today l Hc) as [groups Hfind].
    destruct (find_overlapping_groups_returns today l' Hc') as [groups' Hfind'].
    eauto.
Qed.

Lemma grouping_order_independent_witness :
  (∀ groups groups',
     find_overlapping_groups 0 [Q1; Q2; Q3; Q4] = Ok groups →
     find_overlapping_groups 0 [Q4; Q3; Q2; Q1] = Ok groups' →
     (∀ g, g ∈ groups → ∃ g', g' ∈ groups' ∧ g ≡ₚ g')
     ∧ (∀ g', g' ∈ groups' → ∃ g, g ∈ groups ∧ g' ≡ₚ g))
  ∧ (comparable [Q1; Q2; Q3; Q4] →
     ∃ groups groups',
       find_overlapping_groups 0 [Q1; Q2; Q3; Q4] = Ok groups
       ∧ find_overlapping_groups 0 [Q4; Q3; Q2; Q1] = Ok groups').
Proof.
  apply (grouping_order_independent 0 [Q1; Q2; Q3; Q4] [Q4; Q3; Q2; Q1]).
  - apply (bool_decide_unpack _). vm_compute. exact I.
  - apply (bool_decide_unpack _). vm_compute. exact I.
Defined.

Lemma groups_nil_iff today l groups :
  NoDup (id <$> l) →
  find_overlapping_groups today l = Ok groups →
  groups = [] ↔ ∀ x y, x ∈ l → y ∈ l → x ≠ y → ovb x y = false.
Proof.
  intros Hids Hfind.
  destruct (cluster_facts today l groups Hids Hfind) as (Hnd & Hfacts & Hsame).
  split.
  - intros -> x y Hx Hy Hne.
    destruct (ovb x y) eqn:Hov; [|reflexivity].
    destruct (Hsame x y Hx Hy Hne Hov) as (g & Hg & _). inversion Hg.
  - intros Hnone. destruct groups as [|g gs]; [reflexivity|]. exfalso.
    assert (Hg : g ∈ g :: gs) by left.
    destruct (Hfacts g Hg) as (Hl & Hlen & Hin).
    destruct (lookup_lt_is_Some_2 g 1) as [z Hz]; [lia|].
    destruct (Hl 0%nat z Hz) as (j & y & Hj & Hy & Hov).
    assert (Hyz : y ≠ z).
    { intros ->. assert (j = 0%nat) as -> by lia.
      pose proof (NoDup_lookup g 0 1 z
                    (NoDup_concat_member (g :: gs) g Hnd Hg) Hy Hz).
      discriminate. }
    rewrite (Hnone y z) in Hov; [discriminate| | |exact Hyz];
      apply Hin; eapply list_elem_of_lookup_2; eauto.
Qed.

(** X9. On records with distinct ids, when the clusterer returns, it
    returns no group exactly when the predicate returns [True] on no two
    distinct input records.  (The clusterer returns when every record has
    a start date and none ends on the last date.) *)
Theorem no_groups_iff_no_conflict today (enrollments : list Enrollment) :
  NoDup (id <$> enrollments) →
  (∀ groups,
     find_overlapping_groups today enrollments = Ok groups →
     (groups = [] ↔
      ∀ x y, x ∈ enrollments → y ∈ enrollments → x ≠ y →
        overlap_of x y ≠ Ok true))
  ∧ (comparable enrollments →
     ∃ groups, find_overlapping_groups today enrollments = Ok groups).
Proof.
  intros Hids. split; [|apply find_overlapping_groups_returns].
  intros groups Hfind.
  rewrite (groups_nil_iff today enrollments groups Hids Hfind).
  split; intros H x y Hx Hy Hne.
  - rewrite <- ovb_true, (H x y Hx Hy Hne). discriminate.
  - specialize (H x y Hx Hy Hne). rewrite <- ovb_true in H.
    by destruct (ovb x y).
Qed.

Lemma no_groups_iff_no_conflict_witness :
  (∀ groups,
     find_overlapping_groups 0 [R1; R3] = Ok groups →
     (groups = [] ↔
      ∀ x y, x ∈ [R1; R3] → y ∈ [R1; R3] → x ≠ y →
        overlap_of x y ≠ Ok true))
  ∧ (comparable [R1; R3] →
     ∃ groups, find_overlapping_groups 0 [R1; R3] = Ok groups).
Proof.
  apply (no_groups_iff_no_conflict 0 [R1; R3]).
  apply (bool_decide_unpack _). vm_compute. exact I.
Defined.

(** ** Layout of the returned groups *)

Lemma StronglySorted_lookup {A} (R : A → A → Prop) l (i j : nat) a b :
  StronglySorted R l → (i < j)%nat → l !! i = Some a → l !! j = Some b → R a b.
Proof.
  intros Hs. revert i j. induction Hs as [|x l Hs IH Hall]; intros i j Hij Hi Hj.
  - inversion Hi.
  - destruct j as [|j]; [lia|]. destruct i as [|i]; simpl in *.
    + injection Hi as <-. rewrite Forall_forall in Hall. apply Hall.
      eapply list_elem_of_lookup_2. exact Hj.
    + apply (IH i j); auto. lia.
Qed.


(** Every group opens with the record that seeded it, which starts no later
    than the records it absorbed, and the seeds come in ascending order of
    start date. *)
Lemma find_overlapping_groups_seeded today l groups :
  find_overlapping_groups today l = Ok groups →
  (∀ g, g ∈ groups →
     ∃ e rest, g = e :: rest
               ∧ ∀ m, m ∈ rest → start_key today e <= start_key today m)
  ∧ StronglySorted
      (λ g h, ∀ a b, head g = Some a → head h = Some b →
                start_key today a <= start_key today b) groups.
Proof.
  intros Hfind. destruct (decide (l = [])) as [->|Hne].
  { injection Hfind as <-. split; [|constructor].
    intros g Hg. inversion Hg. }
  destruct (find_overlapping_groups_run today l groups Hne Hfind) as [P Hrun].
  set (S := sorted_by (start_key today) l) in *.
  pose proof (sorted_by_sorted (start_key today) l) as Hsorted. fold S in Hsorted.
  pose proof (for_each_sound (group_step S)
    (λ pre st,
       (∀ x, x ∈ pre → id x ∈ st.2)
       ∧ (∀ g, g ∈ st.1 →
            ∃ e rest, g = e :: rest ∧ e ∈ pre
                      ∧ ∀ m, m ∈ rest → start_key today e <= start_key today m)
       ∧ StronglySorted
           (λ g h, ∀ a b, head g = Some a → head h = Some b →
                     start_key today a <= start_key today b) st.1)
    S ([], ∅) (groups, P)) as Hinv.
  destruct Hinv as (_ & Hseed & Hord); [| |exact Hrun|].
  - split; [intros x Hx; inversion Hx|]. split; [|constructor].
    intros g Hg. inversion Hg.
  - intros pre x post [groups1 P1] st HSeq (Hvis & Hseed & Hord) Hstep.
    simpl in Hvis, Hseed, Hord.
    assert (Hx : x ∈ S) by (rewrite HSeq; set_solver).
    assert (Hkeep : ∀ g, g ∈ groups1 →
              ∃ e rest, g = e :: rest ∧ e ∈ pre ++ [x]
                ∧ ∀ m, m ∈ rest → start_key today e <= start_key today m).
    { intros g Hg. destruct (Hseed g Hg) as (e & rest & -> & He & Hmin).
      exists e, rest. split; [reflexivity|]. split; [|exact Hmin].
      apply elem_of_app. by left. }
    apply (group_step_sound S (λ _ _, True)) in Hstep
      as [[Hp ->] | (Hn & G & P' & -> & Hgr & _ & _)]; [| |auto|auto].
    { simpl. split; [|split; assumption].
      intros z Hz. apply elem_of_app in Hz as [Hz|Hz]; [auto|].
      apply list_elem_of_singleton in Hz as ->. exact Hp. }
    destruct (grown_seed S x P1 G P' Hx Hn Hgr) as (-> & HxG & _).
    destruct Hgr as (added & -> & _ & Hin & _).
    simpl.
    split; [|destruct (1 <? _)%nat; [|split; assumption]; split].
    + intros z Hz. apply elem_of_app in Hz as [Hz|Hz].
      * apply elem_of_union. right. auto.
      * apply list_elem_of_singleton in Hz as ->.
        apply elem_of_union. left. apply id_elem_of_ids. left.
    + intros g Hg. apply elem_of_app in Hg as [Hg|Hg]; [auto|].
      apply list_elem_of_singleton in Hg as ->.
      exists x, added. split; [reflexivity|]. split; [set_solver|].
      intros m Hm. destruct (Hin m Hm) as [HmS HmP].
      rewrite HSeq in HmS. apply elem_of_app in HmS as [HmS|HmS].
      { exfalso. apply HmP. apply elem_of_union. right. auto. }
      apply elem_of_cons in HmS as [->|HmS]; [lia|].
      rewrite HSeq in Hsorted.
      apply (sorted_split_le (start_key today) pre x post m Hsorted HmS).
    + apply StronglySorted_snoc; [exact Hord|].
      intros g Hg a b Ha Hb. simpl in Hb. injection Hb as <-.
      destruct (Hseed g Hg) as (e & rest & -> & He & _).
      simpl in Ha. injection Ha as <-.
      rewrite HSeq in Hsorted.
      apply (StronglySorted_app_1_elem_of _ _ _ e x Hsorted He). left.
  - split; [|exact Hord].
    intros g Hg. destruct (Hseed g Hg) as (e & rest & -> & _ & Hmin). eauto.
Qed.

(** X10. In every group the clusterer returns the first member starts no
    later than any other member, a missing start date counted as the
    current date; this holds for open-ended records too.  (The clusterer
    returns groups when every record has a start date and none ends on the
    last date; it can also return with a record without dates, as on U1
    and Q2.) *)
Theorem group_starts_with_earliest today (enrollments : list Enrollment) :
  (∀ groups,
     find_overlapping_groups today enrollments = Ok groups →
     ∀ g, g ∈ groups →
       ∃ e rest, g = e :: rest
                 ∧ ∀ m, m ∈ rest → start_key today e <= start_key today m)
  ∧ (comparable enrollments →
     ∃ groups, find_overlapping_groups today enrollments = Ok groups)
  ∧ find_overlapping_groups today [U1; Q2]
    = Ok [if today <=? 11 then [U1; Q2] else [Q2; U1]].
Proof.
  split; [|split; [apply find_overlapping_groups_returns|]].
  - intros groups Hfind.
    apply (find_overlapping_groups_seeded today enrollments groups Hfind).
  - unfold find_overlapping_groups, sorted_by, start_key. simpl.
    destruct (today <=? 11); reflexivity.
Qed.

(** X11. The groups are returned in ascending order of the start date of
    their first members, a missing start date counted as the current
    date.  (The clusterer returns groups when every record has a start
    date and none ends on the last date.) *)
Theorem groups_in_start_order today (enrollments : list Enrollment) :
  (∀ groups,
     find_overlapping_groups today enrollments = Ok groups →
     ∀ (i j : nat) g h a b,
       (i < j)%nat → groups !! i = Some g → groups !! j = Some h →
       head g = Some a → head h = Some b →
       start_key today a <= start_key today b)
  ∧ (comparable enrollments →
     ∃ groups, find_overlapping_groups today enrollments = Ok groups).
Proof.
  split; [|apply find_overlapping_groups_returns].
  intros groups Hfind i j g h a b Hij Hg Hh.
  destruct (find_overlapping_groups_seeded today enrollments groups Hfind)
    as [_ Hord].
  apply (StronglySorted_lookup _ groups i j g h Hord Hij Hg Hh).
Qed.

(** ** The pairwise check of list_multiple_enrollments.py *)

Lemma pair_step_sound e1 e2 pairs res :
  pair_step e1 e2 pairs = Ok res →
  (∃ b, overlap_of e1 e2 = Ok b)
  ∧ res = if ovb e1 e2 then pairs ++ [(e1, e2)] else pairs.
Proof.
  unfold pair_step.
  change (ListMultipleEnrollments.ranges_overlap_or_adjacent
            (start_date e1) (end_date e1) (start_date e2) (end_date e2))
    with (overlap_of e1 e2).
  destruct (overlap_of e1 e2) as [b| |] eqn:Hov; simpl; try discriminate.
  rewrite (overlap_of_ovb e1 e2 b Hov).
  intros H. split; [eauto|]. destruct b; congruence.
Qed.

Lemma pairs_with_sound e1 rest pairs res :
  for_each (pair_step e1) rest pairs = Ok res →
  Forall (λ e2, ∃ b, overlap_of e1 e2 = Ok b) rest
  ∧ res = pairs ++ ((λ e2, (e1, e2)) <$> filter (λ e2, ovb e1 e2 = true) rest).
Proof.
  revert pairs. induction rest as [|e2 rest IH]; intros pairs; simpl.
  - intros H. injection H as <-. split; [constructor | by rewrite app_nil_r].
  - destruct (pair_step e1 e2 pairs) as [p1| |] eqn:Hstep; simpl;
      try discriminate.
    apply pair_step_sound in Hstep as [Hb ->]. intros Hrun.
    apply IH in Hrun as [Hall ->]. split; [by constructor|].
    rewrite filter_cons. destruct (ovb e1 e2) eqn:Hov.
    + rewrite decide_True by reflexivity. rewrite fmap_cons, <- app_assoc.
      reflexivity.
    + rewrite decide_False by discriminate. reflexivity.
Qed.

Lemma overlapping_pairs_from_sound l pairs res :
  overlapping_pairs_from l pairs = Ok res →
  compared l ∧ res = pairs ++ conflicting_pairs l.
Proof.
  revert pairs. induction l as [|e1 rest IH]; intros pairs; simpl.
  - intros H. injection H as <-. split; [exact I | by rewrite app_nil_r].
  - destruct (for_each (pair_step e1) rest pairs) as [p1| |] eqn:Hrow; simpl;
      try discriminate.
    apply pairs_with_sound in Hrow as [Hall ->]. intros Hrun.
    apply IH in Hrun as [Hc ->]. split; [by split|].
    by rewrite app_assoc.
Qed.

(** What the check has done when it returns. *)
Lemma check_enrollments_overlap_sound l has_overlap pairs :
  check_enrollments_overlap l = Ok (has_overlap, pairs) →
  compared l ∧ pairs = conflicting_pairs l
  ∧ has_overlap = (0 <? length pairs)%nat.
Proof.
  unfold check_enrollments_overlap.
  destruct (Nat.ltb_spec (length l) 2) as [Hlt|Hge].
  - intros H. injection H as <- <-.
    destruct l as [|e [|e' l']]; simpl in Hlt; try lia; simpl;
      repeat split; try constructor.
  - destruct (overlapping_pairs_from l []) as [ps| |] eqn:Hrun; simpl;
      try discriminate.
    apply overlapping_pairs_from_sound in Hrun as [Hc ->]. simpl.
    intros H. injection H as <- <-. auto.
Qed.

(** On records with start dates, none ending on the last date, the check
    returns. *)
Lemma pair_step_returns e1 e2 pairs :
  dated e1 → below_max e1 → dated e2 → below_max e2 →
  pair_step e1 e2 pairs
  = Ok (if ovb e1 e2 then pairs ++ [(e1, e2)] else pairs).
Proof.
  intros Hd1 Hb1 Hd2 Hb2. unfold pair_step.
  change (ListMultipleEnrollments.ranges_overlap_or_adjacent
            (start_date e1) (end_date e1) (start_date e2) (end_date e2))
    with (overlap_of e1 e2).
  rewrite overlap_of_comparable by assumption. simpl.
  destruct (ovb e1 e2); reflexivity.
Qed.

Lemma pairs_with_returns e1 rest pairs :
  dated e1 → below_max e1 → Forall dated rest → Forall below_max rest →
  ∃ res, for_each (pair_step e1) rest pairs = Ok res.
Proof.
  intros Hd1 Hb1 Hd Hb. revert pairs Hb.
  induction Hd as [|e2 rest Hd2 Hd IH]; intros pairs Hb; [simpl; eauto|].
  apply Forall_cons in Hb as [Hb2 Hb]. cbn [for_each].
  rewrite pair_step_returns by assumption. simpl. apply IH. exact Hb.
Qed.

Lemma overlapping_pairs_from_returns l pairs :
  comparable l → ∃ res, overlapping_pairs_from l pairs = Ok res.
Proof.
  intros [Hd Hb]. revert pairs Hb.
  induction Hd as [|e1 rest Hd1 Hd IH]; intros pairs Hb; simpl; [eauto|].
  apply Forall_cons in Hb as [Hb1 Hb].
  destruct (pairs_with_returns e1 rest pairs Hd1 Hb1 Hd Hb) as [p1 ->]. simpl.
  apply IH. exact Hb.
Qed.

Lemma check_enrollments_overlap_returns l :
  comparable l →
  ∃ has_overlap pairs, check_enrollments_overlap l = Ok (has_overlap, pairs).
Proof.
  intros Hc. unfold check_enrollments_overlap.
  destruct (length l <? 2)%nat; [eauto|].
  destruct (overlapping_pairs_from_returns l [] Hc) as [ps ->]. simpl. eauto.
Qed.

Lemma elem_of_conflicting_pairs l a b :
  (a, b) ∈ conflicting_pairs l
  ↔ ∃ l1 l2 l3, l = l1 ++ a :: l2 ++ b :: l3 ∧ ovb a b = true.
Proof.
  induction l as [|e l IH]; simpl.
  - split; [intros H; inversion H|].
    intros (l1 & l2 & l3 & Heq & _). by destruct l1.
  - rewrite elem_of_app, list_elem_of_fmap, IH. split.
    + intros [(e2 & Heq & He2) | (l1 & l2 & l3 & -> & Hov)].
      * injection Heq as -> ->.
        apply list_elem_of_filter in He2 as [Hov He2].
        apply list_elem_of_split in He2 as (l2 & l3 & ->).
        exists [], l2, l3. auto.
      * exists (e :: l1), l2, l3. auto.
    + intros (l1 & l2 & l3 & Heq & Hov). destruct l1 as [|x l1].
      * simpl in Heq. injection Heq as -> ->. left. exists b.
        split; [reflexivity|]. apply list_elem_of_filter. split; [exact Hov|].
        set_solver.
      * simpl in Heq. injection Heq as -> ->. right. eauto 6.
Qed.

(** X12. When the pairwise check returns, it has listed every pair of
    conflicting records once per pair of positions, the record that comes
    first in the list first, and it reports an overlap exactly when there
    is such a pair.  It returns when every record has a start date and
    none ends on the last date. *)
Theorem check_lists_conflicting_pairs (enrollments : list Enrollment) :
  (∀ has_overlap overlapping_pairs,
     check_enrollments_overlap enrollments = Ok (has_overlap, overlapping_pairs) →
     (has_overlap = true ↔ overlapping_pairs ≠ [])
     ∧ ∀ a b, (a, b) ∈ overlapping_pairs
         ↔ ∃ l1 l2 l3, enrollments = l1 ++ a :: l2 ++ b :: l3
                       ∧ overlap_of a b = Ok true)
  ∧ (comparable enrollments →
     ∃ has_overlap overlapping_pairs,
       check_enrollments_overlap enrollments
       = Ok (has_overlap, overlapping_pairs)).
Proof.
  split; [|apply check_enrollments_overlap_returns].
  intros has_overlap pairs Hcheck.
  apply check_enrollments_overlap_sound in Hcheck as (_ & -> & ->). split.
  - destruct (conflicting_pairs enrollments); simpl; split;
      try discriminate; try reflexivity. intros H. contradiction.
  - intros a b. rewrite elem_of_conflicting_pairs.
    setoid_rewrite ovb_true. reflexivity.
Qed.

(** Where the predicate returns on a pair, the pair conflicts in one order
    or the other exactly when it conflicts in the order compared. *)
Lemma filter_conflict_either e1 rest :
  Forall (λ e2, ∃ b, overlap_of e1 e2 = Ok b) rest →
  filter (λ e2, ovb e1 e2 = true) rest
  = filter (λ e2, ovb e1 e2 || ovb e2 e1 = true) rest.
Proof.
  induction 1 as [|e2 rest [b Hb] Hall IH]; [reflexivity|].
  rewrite !filter_cons, IH.
  assert (Heq : ovb e1 e2 || ovb e2 e1 = ovb e1 e2).
  { rewrite (overlap_of_ovb e1 e2 b Hb). destruct b; [reflexivity|]. simpl.
    destruct (ovb e2 e1) eqn:Hrev; [|reflexivity].
    apply ovb_true in Hrev.
    pose proof (overlap_of_agree _ _ _ _ Hb Hrev). discriminate. }
  rewrite Heq. reflexivity.
Qed.

Lemma conflicting_pairs_count l :
  compared l → length (conflicting_pairs l) = conflicting_either l.
Proof.
  induction l as [|e1 rest IH]; [reflexivity|]. intros [Hall Hc]. simpl.
  rewrite length_app, length_fmap, IH by exact Hc.
  by rewrite filter_conflict_either.
Qed.

Lemma conflicting_either_perm l l' :
  l ≡ₚ l' → conflicting_either l = conflicting_either l'.
Proof.
  induction 1 as [|x l l' Hp IH|x y l|l l' l'' Hp1 IH1 Hp2 IH2].
  - reflexivity.
  - simpl. rewrite IH. by rewrite Hp.
  - simpl. rewrite !filter_cons, (orb_comm (ovb y x)).
    destruct (ovb x y || ovb y x); simpl; repeat case_decide;
      try discriminate; try congruence; simpl; lia.
  - congruence.
Qed.

(** X13. The order of the records does not change what the pairwise check
    finds: when it returns on a list and on a permutation of it, the
    verdict is the same and so is the number of pairs reported.  It
    returns on both when every record has a start date and none ends on
    the last date.  With a record without start date it can return on one
    order and raise on the other: on A20, B19 it reports the pair, and on
    B19, A20 it raises [TypeError]. *)
Theorem check_order_independent (l l' : list Enrollment) :
  l ≡ₚ l' →
  (∀ has_overlap pairs has_overlap' pairs',
     check_enrollments_overlap l = Ok (has_overlap, pairs) →
     check_enrollments_overlap l' = Ok (has_overlap', pairs') →
     has_overlap = has_overlap' ∧ length pairs = length pairs')
  ∧ (comparable l →
     ∃ has_overlap pairs has_overlap' pairs',
       check_enrollments_overlap l = Ok (has_overlap, pairs)
       ∧ check_enrollments_overlap l' = Ok (has_overlap', pairs'))
  ∧ check_enrollments_overlap [A20; B19] = Ok (true, [(A20, B19)])
  ∧ check_enrollments_overlap [B19; A20] = Raise TypeError.
Proof.
  intros Hp. split; [|split; [|split; reflexivity]].
  - intros h ps h' ps' Hcheck Hcheck'.
    apply check_enrollments_overlap_sound in Hcheck as (Hc & -> & ->).
    apply check_enrollments_overlap_sound in Hcheck' as (Hc' & -> & ->).
    rewrite !conflicting_pairs_count by assumption.
    rewrite (conflicting_either_perm l l' Hp). auto.
  - intros Hc.
    assert (Hc' : comparable l').
    { destruct Hc as [Hd Hb]. split; rewrite <- Hp; assumption. }
    destruct (check_enrollments_overlap_returns l Hc) as (h & ps & Hcheck).
    destruct (check_enrollments_overlap_returns l' Hc') as (h' & ps' & Hcheck').
    eauto 10.
Qed.

Lemma check_order_independent_witness :
  (∀ has_overlap pairs has_overlap' pairs',
     check_enrollments_overlap [R1; R2; R3] = Ok (has_overlap, pairs) →
     check_enrollments_overlap [R3; R1; R2] = Ok (has_overlap', pairs') →
     has_overlap = has_overlap' ∧ length pairs = length pairs')
  ∧ (comparable [R1; R2; R3] →
     ∃ has_overlap pairs has_overlap' pairs',
       check_enrollments_overlap [R1; R2; R3] = Ok (has_overlap, pairs)
       ∧ check_enrollments_overlap [R3; R1; R2] = Ok (has_overlap', pairs'))
  ∧ check_enrollments_overlap [A20; B19] = Ok (true, [(A20, B19)])
  ∧ check_enrollments_overlap [B19; A20] = Raise TypeError.
Proof.
  apply (check_order_independent [R1; R2; R3] [R3; R1; R2]).
  apply (bool_decide_unpack _). vm_compute. exact I.
Defined.

Lemma two_members_split {A} (l : list A) x y :
  x ∈ l → y ∈ l → x ≠ y →
  ∃ l1 l2 l3, l = l1 ++ x :: l2 ++ y :: l3 ∨ l = l1 ++ y :: l2 ++ x :: l3.
Proof.
  intros Hx Hy Hne. apply list_elem_of_split in Hx as (l1 & l2 & ->).
  apply elem_of_app in Hy as [Hy|Hy].
  - apply list_elem_of_split in Hy as (k1 & k2 & ->).
    exists k1, k2, l2. right. by rewrite <- app_assoc.
  - apply elem_of_cons in Hy as [->|Hy]; [contradiction|].
    apply list_elem_of_split in Hy as (k1 & k2 & ->).
    exists l1, k1, k2. by left.
Qed.

Lemma compared_split l l1 a l2 b l3 :
  compared l → l = l1 ++ a :: l2 ++ b :: l3 → ∃ v, overlap_of a b = Ok v.
Proof.
  revert l. induction l1 as [|x l1 IH]; intros l Hc ->.
  - destruct Hc as [Hall _]. rewrite Forall_forall in Hall.
    apply Hall. set_solver.
  - destruct Hc as [_ Hc]. eapply IH; [exact Hc | reflexivity].
Qed.

(** X14. The two commands agree: on records with distinct ids, when the
    pairwise check of list_multiple_enrollments.py and the clusterer of
    remove_duplicacy.py both return, the check reports an overlap exactly
    when the clusterer returns at least one group.  Both return when every
    record has a start date and none ends on the last date; on L1 and L2
    the check raises [OverflowError] where the clusterer returns a
    group. *)
Theorem check_agrees_with_clusterer today (enrollments : list Enrollment) :
  NoDup (id <$> enrollments) →
  (∀ has_overlap overlapping_pairs groups,
     check_enrollments_overlap enrollments = Ok (has_overlap, overlapping_pairs) →
     find_overlapping_groups today enrollments = Ok groups →
     (has_overlap = true ↔ groups ≠ []))
  ∧ (comparable enrollments →
     ∃ has_overlap overlapping_pairs groups,
       check_enrollments_overlap enrollments
       = Ok (has_overlap, overlapping_pairs)
       ∧ find_overlapping_groups today enrollments = Ok groups)
  ∧ check_enrollments_overlap [L1; L2] = Raise OverflowError
  ∧ find_overlapping_groups today [L1; L2] = Ok [[L2; L1]].
Proof.
  intros Hids. split; [|split; [|split; reflexivity]].
  - intros has_overlap pairs groups Hcheck Hfind.
    apply check_enrollments_overlap_sound in Hcheck as (Hc & -> & ->).
    destruct (cluster_facts today enrollments groups Hids Hfind)
      as (Hnd & Hfacts & Hsame).
    pose proof (NoDup_fmap_1 id _ Hids) as Hndl.
    rewrite Nat.ltb_lt. split.
    + intros Hlen ->.
      destruct (conflicting_pairs enrollments) as [|[a b] ps] eqn:Hcp;
        [simpl in Hlen; lia|].
      assert (Hab : (a, b) ∈ conflicting_pairs enrollments) by (rewrite Hcp; left).
      apply elem_of_conflicting_pairs in Hab as (l1 & l2 & l3 & Heq & Hov).
      destruct (Hsame a b) as (g & Hg & _); [| | |exact Hov|inversion Hg].
      * rewrite Heq. set_solver.
      * rewrite Heq. set_solver.
      * intros ->. rewrite Heq in Hndl.
        apply NoDup_app in Hndl as (_ & _ & Hndl).
        apply NoDup_cons in Hndl as [Hnin _]. apply Hnin. set_solver.
    + intros Hg. destruct groups as [|g gs]; [contradiction|].
      assert (Hgin : g ∈ g :: gs) by left.
      destruct (Hfacts g Hgin) as (Hl & Hlen & Hin).
      destruct (lookup_lt_is_Some_2 g 1) as [z Hz]; [lia|].
      destruct (Hl 0%nat z Hz) as (j & y & Hj & Hy & Hov).
      assert (Hyz : y ≠ z).
      { intros ->. assert (j = 0%nat) as -> by lia.
        pose proof (NoDup_lookup g 0 1 z
                      (NoDup_concat_member (g :: gs) g Hnd Hgin) Hy Hz).
        discriminate. }
      assert (Hyl : y ∈ enrollments)
        by (apply Hin; eapply list_elem_of_lookup_2; eauto).
      assert (Hzl : z ∈ enrollments)
        by (apply Hin; eapply list_elem_of_lookup_2; eauto).
      assert (Hpair : ∃ p, p ∈ conflicting_pairs enrollments).
      { destruct (two_members_split enrollments y z Hyl Hzl Hyz)
          as (l1 & l2 & l3 & [Heq|Heq]).
        - exists (y, z). apply elem_of_conflicting_pairs. eauto 6.
        - exists (z, y). apply elem_of_conflicting_pairs.
          exists l1, l2, l3. split; [exact Heq|].
          destruct (compared_split _ _ _ _ _ _ Hc Heq) as [v Hv].
          apply ovb_true in Hov.
          rewrite (overlap_of_agree _ _ _ _ Hv Hov) in Hv.
          apply ovb_true, Hv. }
      destruct Hpair as [p Hp].
      destruct (conflicting_pairs enrollments); [inversion Hp | simpl; lia].
  - intros Hc.
    destruct (check_enrollments_overlap_returns enrollments Hc) as (h & ps & ->).
    destruct (find_overlapping_groups_returns today enrollments Hc) as [gs ->].
    eauto.
Qed.

Lemma check_agrees_with_clusterer_witness :
  (∀ has_overlap overlapping_pairs groups,
     check_enrollments_overlap [R1; R2; R3] = Ok (has_overlap, overlapping_pairs) →
     find_overlapping_groups 0 [R1; R2; R3] = Ok groups →
     (has_overlap = true ↔ groups ≠ []))
  ∧ (comparable [R1; R2; R3] →
     ∃ has_overlap overlapping_pairs groups,
       check_enrollments_overlap [R1; R2; R3]
       = Ok (has_overlap, overlapping_pairs)
       ∧ find_overlapping_groups 0 [R1; R2; R3] = Ok groups)
  ∧ check_enrollments_overlap [L1; L2] = Raise OverflowError
  ∧ find_overlapping_groups 0 [L1; L2] = Ok [[L2; L1]].
Proof.
  apply (check_agrees_with_clusterer 0 [R1; R2; R3]).
  apply (bool_decide_unpack _). vm_compute. exact I.
Defined.

(** ** More on the resolver *)

Lemma candidates_same_state l r c :
  r ∈ candidates_of l → c ∈ l → is_archived c = is_archived r →
  c ∈ candidates_of l.
Proof.
  rewrite !elem_of_candidates_of. intros [Hr Hor] Hc Hst.
  split; [exact Hc|]. destruct Hor as [Hf|Hall]; [left; congruence | by right].
Qed.

(** X15. On a non-empty cluster the resolver keeps one of its records, and
    a non-archived one whenever the cluster has a non-archived record,
    whatever the creation times. *)
Theorem resolver_prefers_non_archived today clock (l : list Enrollment) :
  l ≠ [] →
  ∃ r, (select_best_enrollment today clock l).1 = Ok r
       ∧ r ∈ l
       ∧ ((∃ x, x ∈ l ∧ is_archived x = false) → is_archived r = false).
Proof.
  intros Hl.
  destruct (select_best_chosen today clock l Hl) as (r & Hr & mr & _ & _ & Hrc & _).
  exists r. split; [exact Hr|].
  apply elem_of_candidates_of in Hrc as [Hrl Hor].
  split; [exact Hrl|]. intros (x & Hx & Hxa).
  destruct Hor as [Hf|Hall]; [exact Hf|].
  rewrite (Hall x Hx) in Hxa. discriminate.
Qed.

Lemma resolver_prefers_non_archived_witness :
  ∃ r, (select_best_enrollment 0 (λ _, 0) [R1; R2; R3]).1 = Ok r
       ∧ r ∈ [R1; R2; R3]
       ∧ ((∃ x, x ∈ [R1; R2; R3] ∧ is_archived x = false) →
          is_archived r = false).
Proof. apply (resolver_prefers_non_archived 0 (λ _, 0) [R1; R2; R3]). discriminate. Defined.

(** X16. Among the records of its archived state the kept record is the
    best in the order of the tiers: no record with a creation timestamp
    was created later than the kept record, when that has a timestamp; of
    those created at the same time (or, like it, without timestamp) none
    has a higher completeness score; and of those with the same score as
    well none starts earlier.  This holds whatever the clock reads. *)
Theorem resolver_keeps_best today clock (l : list Enrollment) :
  l ≠ [] →
  ∃ r, (select_best_enrollment today clock l).1 = Ok r
       ∧ ∀ c, c ∈ l → is_archived c = is_archived r →
           (∀ tc tr, created_at c = Some tc → created_at r = Some tr →
              tc <= tr)
           ∧ (created_at c = created_at r →
              completeness_score c <= completeness_score r
              ∧ (completeness_score c = completeness_score r →
                 start_key today r <= start_key today c)).
Proof.
  intros Hl.
  destruct (select_best_chosen today clock l Hl)
    as (r & Hr & mr & Hmr & Hmax & Hrc & Hrt & Hrs & Hrd).
  exists r. split; [exact Hr|]. intros c Hc Hst.
  pose proof (candidates_same_state l r c Hrc Hc Hst) as Hcc.
  split.
  - intros tc tr Htc Htr. apply (Hmax c tc tr Hcc Htc). congruence.
  - intros Hct. split; [apply Hrs; congruence|].
    intros Hcs. apply Hrd; congruence.
Qed.

Lemma resolver_keeps_best_witness :
  ∃ r, (select_best_enrollment 0 (λ n, Z.of_nat n) [W1; W2; R1]).1 = Ok r
       ∧ ∀ c, c ∈ [W1; W2; R1] → is_archived c = is_archived r →
           (∀ tc tr, created_at c = Some tc → created_at r = Some tr →
              tc <= tr)
           ∧ (created_at c = created_at r →
              completeness_score c <= completeness_score r
              ∧ (completeness_score c = completeness_score r →
                 start_key 0 r <= start_key 0 c)).
Proof.
  apply (resolver_keeps_best 0 (λ n, Z.of_nat n) [W1; W2; R1]). discriminate.
Defined.

(** X17. The resolver never drops or duplicates a record of the caller's
    list: afterwards the list holds the same records, and in the same
    order whenever one of them is non-archived. *)
Theorem resolver_keeps_records today clock (l : list Enrollment) :
  (select_best_enrollment today clock l).2 ≡ₚ l
  ∧ ((∃ x, x ∈ l ∧ is_archived x = false) →
     (select_best_enrollment today clock l).2 = l).
Proof.
  rewrite select_best_store. case_decide; [split; reflexivity|].
  destruct (filter (λ e, is_archived e = false) l) as [|n na] eqn:Hf.
  - split; [apply sorted_by_created_desc_perm|]. intros (x & Hx & Hxa).
    assert (Hin : x ∈ filter (λ e, is_archived e = false) l)
      by (apply list_elem_of_filter; auto).
    rewrite Hf in Hin. inversion Hin.
  - split; reflexivity.
Qed.





(** ** Removal of a group *)

Lemma filter_other_ids (l : list Enrollment) r :
  id r ∉ id <$> l → filter (λ e, id e ≠ id r) l = l.
Proof.
  induction l as [|b l IH]; intros Hr; [reflexivity|].
  rewrite fmap_cons in Hr. apply not_elem_of_cons in Hr as [Hb Hr].
  rewrite filter_cons, decide_True by congruence. f_equal. auto.
Qed.

Lemma kept_and_removed_ids (l : list Enrollment) r :
  NoDup (id <$> l) → r ∈ l →
  id r :: (id <$> filter (λ e, id e ≠ id r) l) ≡ₚ id <$> l.
Proof.
  induction l as [|a l IH]; intros Hnd Hr; [inversion Hr|].
  rewrite fmap_cons in Hnd. apply NoDup_cons in Hnd as [Ha Hnd].
  rewrite filter_cons. apply elem_of_cons in Hr as [->|Hr].
  - rewrite decide_False by (intros H; by apply H).
    rewrite filter_other_ids by exact Ha. reflexivity.
  - assert (Hne : id a ≠ id r).
    { intros Heq. apply Ha. rewrite Heq. apply list_elem_of_fmap. eauto. }
    rewrite decide_True by exact Hne. rewrite !fmap_cons.
    rewrite Permutation_swap. f_equiv. apply IH; assumption.
Qed.

Lemma select_store_perm today clock l :
  (select_best_enrollment today clock l).2 ≡ₚ l.
Proof.
  rewrite select_best_store. case_decide; [reflexivity|].
  destruct (filter _ l); [apply sorted_by_created_desc_perm | reflexivity].
Qed.

(** The dry-run report on a group of two or more records. *)
Lemma dry_run_report today clock group :
  (2 ≤ length group)%nat →
  ∃ r group',
    select_best_enrollment today clock group = (Ok r, group')
    ∧ r ∈ group ∧ group' ≡ₚ group
    ∧ remove_duplicate_group_dry_run today clock group
      = Ok (Some (mkRemoval (id r)
                    (length (filter (λ e, id e ≠ id r) group'))
                    (id <$> filter (λ e, id e ≠ id r) group')
                    (length group') false)).
Proof.
  intros Hlen.
  assert (Hne : group ≠ []) by (destruct group; [simpl in Hlen; lia | discriminate]).
  destruct (select_best_chosen today clock group Hne)
    as (r & Hr & mr & _ & _ & Hrc & _).
  apply elem_of_candidates_of in Hrc as [Hrg _].
  pose proof (select_store_perm today clock group) as Hp.
  destruct (select_best_enrollment today clock group) as [res group'] eqn:Hsel.
  simpl in Hr, Hp. subst res.
  exists r, group'. split; [reflexivity|]. split; [exact Hrg|].
  split; [exact Hp|].
  unfold remove_duplicate_group_dry_run.
  destruct (Nat.leb_spec (length group) 1); [lia|].
  rewrite Hsel. reflexivity.
Qed.

(** X19. For a group of two or more records the dry run reports a kept id
    taken from the group and never lists it among the ids to remove; the
    ids to remove are the other ids of the group, counted by
    [removed_count]; with distinct ids, kept and removed ids together are
    the ids of the group, so one record less than the group is removed. *)
Theorem dry_run_report_consistent today clock (group : list Enrollment) :
  (2 ≤ length group)%nat →
  ∃ rep,
    remove_duplicate_group_dry_run today clock group = Ok (Some rep)
    ∧ kept_id rep ∈ id <$> group
    ∧ (∀ i, i ∈ removed_ids rep ↔ i ∈ id <$> group ∧ i ≠ kept_id rep)
    ∧ removed_count rep = length (removed_ids rep)
    ∧ total_duplicates rep = length group
    ∧ (NoDup (id <$> group) →
       kept_id rep :: removed_ids rep ≡ₚ id <$> group
       ∧ (removed_count rep + 1 = total_duplicates rep)%nat).
Proof.
  intros Hlen.
  destruct (dry_run_report today clock group Hlen)
    as (r & group' & Hsel & Hr & Hp & Hrep).
  eexists. split; [exact Hrep|]. simpl.
  split; [apply list_elem_of_fmap; eauto|]. split; [|split; [|split; [|]]].
  - intros i. rewrite !list_elem_of_fmap. split.
    + intros (e & -> & He). apply list_elem_of_filter in He as [Hne He].
      split; [|exact Hne]. exists e. split; [reflexivity|]. by rewrite <- Hp.
    + intros [(e & -> & He) Hne]. exists e. split; [reflexivity|].
      apply list_elem_of_filter. split; [exact Hne|]. by rewrite Hp.
  - by rewrite length_fmap.
  - by rewrite Hp.
  - intros Hnd.
    assert (Hnd' : NoDup (id <$> group')) by (rewrite Hp; exact Hnd).
    assert (Hr' : r ∈ group') by (rewrite Hp; exact Hr).
    pose proof (kept_and_removed_ids group' r Hnd' Hr') as Hperm.
    split; [by rewrite Hperm, Hp|].
    apply Permutation_length in Hperm. simpl in Hperm.
    rewrite !length_fmap in Hperm. lia.
Qed.

Lemma dry_run_report_consistent_witness :
  ∃ rep,
    remove_duplicate_group_dry_run 0 (λ _, 0) [R1; R2; R3] = Ok (Some rep)
    ∧ kept_id rep ∈ id <$> [R1; R2; R3]
    ∧ (∀ i, i ∈ removed_ids rep ↔ i ∈ id <$> [R1; R2; R3] ∧ i ≠ kept_id rep)
    ∧ removed_count rep = length (removed_ids rep)
    ∧ total_duplicates rep = length [R1; R2; R3]
    ∧ (NoDup (id <$> [R1; R2; R3]) →
       kept_id rep :: removed_ids rep ≡ₚ id <$> [R1; R2; R3]
       ∧ (removed_count rep + 1 = total_duplicates rep)%nat).
Proof. apply (dry_run_report_consistent 0 (λ _, 0) [R1; R2; R3]). simpl. lia. Defined.

Lemma delete_fold delete_ok (l : list Enrollment) c removed att :
  ∃ new_ids,
    foldl (delete_step delete_ok) (c, removed, att) l
    = ((c + length new_ids)%nat, removed ++ new_ids, att ++ l)
    ∧ sublist new_ids (id <$> l)
    ∧ ((∀ n e, delete_ok n e = true) → new_ids = id <$> l).
Proof.
  revert c removed att. induction l as [|e l IH]; intros c removed att.
  - exists []. simpl. rewrite Nat.add_0_r, !app_nil_r. repeat split. constructor.
  - simpl. destruct (delete_ok (length att) e) eqn:Hok.
    + destruct (IH (Datatypes.S c) (removed ++ [id e]) (att ++ [e]))
        as (new_ids & Hrun & Hsub & Hall).
      exists (id e :: new_ids). rewrite Hrun. simpl.
      rewrite <- !app_assoc. simpl. split; [f_equal; f_equal; lia|].
      split; [by constructor|]. intros Hok'. by rewrite Hall.
    + destruct (IH c removed (att ++ [e])) as (new_ids & Hrun & Hsub & Hall).
      exists new_ids. rewrite Hrun, <- !app_assoc. simpl.
      split; [reflexivity|]. split; [by constructor|].
      intros Hok'. rewrite Hok' in Hok. discriminate.
Qed.


(** The real run on a group of two or more records. *)
Lemma real_run_report today clock delete_ok status_changed group :
  (2 ≤ length group)%nat →
  ∃ r group' new_ids,
    select_best_enrollment today clock group = (Ok r, group')
    ∧ r ∈ group ∧ group' ≡ₚ group
    ∧ sublist new_ids (id <$> filter (λ e, id e ≠ id r) group')
    ∧ ((∀ n e, delete_ok n e = true) →
       new_ids = id <$> filter (λ e, id e ≠ id r) group')
    ∧ remove_duplicate_group today clock delete_ok status_changed group false
      = (Ok (Some (mkRemoval (id r) (length new_ids) new_ids (length group')
                     match status_changed r with
                     | Some true => true
                     | _ => false
                     end)),
         filter (λ e, id e ≠ id r) group').
Proof.
  intros Hlen.
  destruct (dry_run_report today clock group Hlen)
    as (r & group' & Hsel & Hr & Hp & _).
  destruct (delete_fold delete_ok (filter (λ e, id e ≠ id r) group') 0 [] [])
    as (new_ids & Hrun & Hsub & Hall).
  exists r, group', new_ids. split; [exact Hsel|]. split; [exact Hr|].
  split; [exact Hp|]. split; [exact Hsub|]. split; [exact Hall|].
  unfold remove_duplicate_group.
  destruct (Nat.leb_spec (length group) 1); [lia|].
  rewrite Hsel. cbv zeta. rewrite Hrun. reflexivity.
Qed.

(** X20. A real run on a group of two or more records calls [delete()]
    once on each record of the group whose id differs from the kept id, in
    the order of the list, and on nothing else: the kept record is never
    deleted.  The ids it reports as removed are those of deletions that
    went through, [removed_count] counts them, and a failed deletion does
    not stop the later ones. *)
Theorem removal_spares_kept today clock delete_ok status_changed
    (group : list Enrollment) :
  (2 ≤ length group)%nat →
  ∃ rep attempted,
    remove_duplicate_group today clock delete_ok status_changed group false
    = (Ok (Some rep), attempted)
    ∧ kept_id rep ∈ id <$> group
    ∧ (∀ e, e ∈ attempted ↔ e ∈ group ∧ id e ≠ kept_id rep)
    ∧ attempted
      = filter (λ e, id e ≠ kept_id rep)
          (select_best_enrollment today clock group).2
    ∧ sublist (removed_ids rep) (id <$> attempted)
    ∧ removed_count rep = length (removed_ids rep)
    ∧ total_duplicates rep = length group.
Proof.
  intros Hlen.
  destruct (real_run_report today clock delete_ok status_changed group Hlen)
    as (r & group' & new_ids & Hsel & Hr & Hp & Hsub & _ & Hrun).
  eexists _, _. split; [exact Hrun|]. simpl.
  split; [apply list_elem_of_fmap; eauto|]. split; [|split; [|split; [|split]]].
  - intros e. rewrite list_elem_of_filter, Hp. tauto.
  - rewrite Hsel. reflexivity.
  - exact Hsub.
  - reflexivity.
  - by rewrite Hp.
Qed.

Lemma removal_spares_kept_witness :
  ∃ rep attempted,
    remove_duplicate_group 0 (λ _, 0) (λ n _, Nat.even n) (λ _, None) [R1; R2; R3] false
    = (Ok (Some rep), attempted)
    ∧ kept_id rep ∈ id <$> [R1; R2; R3]
    ∧ (∀ e, e ∈ attempted ↔ e ∈ [R1; R2; R3] ∧ id e ≠ kept_id rep)
    ∧ attempted
      = filter (λ e, id e ≠ kept_id rep)
          (select_best_enrollment 0 (λ _, 0) [R1; R2; R3]).2
    ∧ sublist (removed_ids rep) (id <$> attempted)
    ∧ removed_count rep = length (removed_ids rep)
    ∧ total_duplicates rep = length [R1; R2; R3].
Proof.
  apply (removal_spares_kept 0 (λ _, 0) (λ n _, Nat.even n) (λ _, None) [R1; R2; R3]).
  simpl. lia.
Defined.



(** ** The driver: grouping by client and program *)

Lemma append_to_key_keys key e (gs : list (Z * Z * list Enrollment)) :
  (append_to_key key e gs).*1
  = if decide (key ∈ gs.*1) then gs.*1 else gs.*1 ++ [key].
Proof.
  induction gs as [|[k es] gs IH].
  - cbn. case_decide as H; [inversion H | reflexivity].
  - cbn [append_to_key]. destruct (decide (k = key)) as [->|Hne]; cbn [fmap list_fmap fst].
    + rewrite decide_True by left. reflexivity.
    + rewrite IH. destruct (decide (key ∈ gs.*1)) as [Hin|Hnin].
      * rewrite decide_True by (by right). reflexivity.
      * rewrite decide_False; [reflexivity|].
        intros Hin. apply elem_of_cons in Hin as [?|?]; congruence.
Qed.

Lemma append_to_key_entries key e (gs : list (Z * Z * list Enrollment)) k es :
  NoDup gs.*1 → (k, es) ∈ append_to_key key e gs →
  (k ≠ key ∧ (k, es) ∈ gs)
  ∨ (k = key ∧ ∃ es0, es = es0 ++ [e]
                      ∧ ((k, es0) ∈ gs ∨ (es0 = [] ∧ key ∉ gs.*1))).
Proof.
  induction gs as [|[k0 es0] gs IH]; simpl; intros Hnd Hin.
  - apply list_elem_of_singleton in Hin. injection Hin as -> ->.
    right. split; [reflexivity|]. exists []. split; [reflexivity|].
    right. split; [reflexivity|]. intros H. inversion H.
  - apply NoDup_cons in Hnd as [Hk0 Hnd].
    destruct (decide (k0 = key)) as [->|Hne].
    + apply elem_of_cons in Hin as [Heq|Hin].
      * injection Heq as -> ->. right. split; [reflexivity|].
        exists es0. split; [reflexivity|]. left. left.
      * left. split; [|by right]. intros ->. apply Hk0.
        apply list_elem_of_fmap. exists (key, es). auto.
    + apply elem_of_cons in Hin as [Heq|Hin].
      * injection Heq as -> ->. left. split; [exact Hne | left].
      * destruct (IH Hnd Hin) as [[Hk Hin'] | (-> & es1 & -> & Hor)].
        -- left. split; [exact Hk | by right].
        -- right. split; [reflexivity|]. exists es1. split; [reflexivity|].
           destruct Hor as [Hin'|[-> Hnin]]; [left; by right|].
           right. split; [reflexivity|].
           intros H. apply elem_of_cons in H as [H|H];
             [apply Hne; symmetry; exact H | contradiction].
Qed.

Lemma append_to_key_concat key e (gs : list (Z * Z * list Enrollment)) :
  concat (append_to_key key e gs).*2 ≡ₚ concat gs.*2 ++ [e].
Proof.
  induction gs as [|[k es] gs IH]; simpl; [reflexivity|].
  destruct (decide (k = key)); simpl.
  - rewrite <- !app_assoc. f_equiv. apply Permutation_app_comm.
  - rewrite IH, app_assoc. reflexivity.
Qed.

Lemma group_by_key_snoc rows r :
  group_by_key (rows ++ [r])
  = append_to_key (row_key r) (enrollment r) (group_by_key rows).
Proof. unfold group_by_key. rewrite foldl_app. reflexivity. Qed.

(** The dictionary after the grouping loop. *)
Lemma group_by_key_spec rows :
  NoDup (group_by_key rows).*1
  ∧ (∀ k es, (k, es) ∈ group_by_key rows →
       es ≠ [] ∧ es = enrollment <$> filter (λ r, row_key r = k) rows)
  ∧ (∀ r, r ∈ rows → row_key r ∈ (group_by_key rows).*1)
  ∧ concat (group_by_key rows).*2 ≡ₚ enrollment <$> rows.
Proof.
  induction rows as [|r rows (Hnd & Hent & Hkeys & Hcat)] using rev_ind.
  { repeat split; try constructor; intros; set_solver. }
  rewrite group_by_key_snoc. split; [|split; [|split]].
  - rewrite append_to_key_keys. case_decide; [exact Hnd|].
    apply NoDup_app. split; [exact Hnd|]. split; [|apply NoDup_singleton].
    intros k Hk Hk'. apply list_elem_of_singleton in Hk' as ->. contradiction.
  - intros k es Hin. rewrite filter_app, fmap_app.
    apply append_to_key_entries in Hin
      as [[Hne Hin] | (-> & es0 & -> & Hor)]; [| |exact Hnd].
    + destruct (Hent k es Hin) as [Hes ->]. split; [exact Hes|].
      rewrite filter_cons, decide_False by congruence.
      rewrite filter_nil, app_nil_r. reflexivity.
    + split; [by destruct es0|].
      rewrite filter_cons, decide_True by reflexivity. rewrite filter_nil.
      simpl. f_equal. destruct Hor as [Hin|[-> Hnin]].
      * by destruct (Hent _ _ Hin) as [_ <-].
      * destruct (filter (λ r0, row_key r0 = row_key r) rows) as [|r' l] eqn:Hf;
          [reflexivity|]. exfalso.
        assert (Hr' : r' ∈ filter (λ r0, row_key r0 = row_key r) rows)
          by (rewrite Hf; left).
        apply list_elem_of_filter in Hr' as [Hk Hr'].
        apply Hnin. rewrite <- Hk. apply Hkeys, Hr'.
  - intros r' Hr'. rewrite append_to_key_keys.
    apply elem_of_app in Hr' as [Hr'|Hr'].
    + case_decide; [|apply elem_of_app; left]; apply Hkeys, Hr'.
    + apply list_elem_of_singleton in Hr' as ->.
      case_decide; [assumption | set_solver].
  - rewrite append_to_key_concat, Hcat, fmap_app. reflexivity.
Qed.

(** X22. The grouping loop of the driver files every row under its client
    and program: the keys are distinct, the records filed under a key are
    exactly the rows with that client and program, in table order, no
    key is left with an empty list, and every row has its key. *)
Theorem grouping_by_client_and_program (rows : list Row) :
  NoDup (group_by_key rows).*1
  ∧ (∀ k es, (k, es) ∈ group_by_key rows →
       es ≠ [] ∧ es = enrollment <$> filter (λ r, row_key r = k) rows)
  ∧ (∀ r, r ∈ rows → ∃ es, (row_key r, es) ∈ group_by_key rows).
Proof.
  destruct (group_by_key_spec rows) as (Hnd & Hent & Hkeys & _).
  split; [exact Hnd|]. split; [exact Hent|].
  intros r Hr. apply Hkeys in Hr.
  apply list_elem_of_fmap in Hr as ([k es] & Hk & Hin). simpl in Hk.
  exists es. by rewrite Hk.
Qed.

(** ** The driver: what a dry run counts *)

Lemma NoDup_fmap_filter {A B} (f : A → B) (P : A → Prop)
    `{!∀ x, Decision (P x)} (l : list A) :
  NoDup (f <$> l) → NoDup (f <$> filter P l).
Proof.
  induction l as [|x l IH]; [intros; constructor|].
  rewrite fmap_cons, filter_cons. intros [Hx Hnd]%NoDup_cons.
  case_decide; [|auto]. rewrite fmap_cons. apply NoDup_cons. split; [|auto].
  intros Hin. apply Hx. apply list_elem_of_fmap in Hin as (y & -> & Hy).
  apply list_elem_of_filter in Hy as [_ Hy]. apply list_elem_of_fmap. eauto.
Qed.

Lemma Forall_filter_keeps {A} (Q P : A → Prop) `{!∀ x, Decision (P x)}
    (l : list A) :
  Forall Q l → Forall Q (filter P l).
Proof.
  rewrite !Forall_forall. intros HQ x Hx.
  apply list_elem_of_filter in Hx as [_ Hx]. auto.
Qed.

(** The tally after one group of two or more records with distinct ids, all
    of them rows of the key. *)
Lemma tally_group_good today clocks rows key t g :
  (2 ≤ length g)%nat → NoDup (id <$> g) →
  (∀ e, e ∈ g → ∃ r, r ∈ rows ∧ enrollment r = e ∧ row_key r = key) →
  ∃ d,
    detail_ok rows d
    ∧ (length (d_removed_ids d) + 1 = length g)%nat
    ∧ tally_group today clocks key t g
      = mkTally (groups_with_multiple t) (groups_with_overlaps t)
          (groups_with_no_overlaps t) (total_duplicate_groups t)
          (enrollments_in_groups_with_multiple t)
          (total_removed t + length (d_removed_ids d))
          (total_kept t + 1)
          (groups_with_removals t) (clients_status_updated t) (errors t)
          (all_removed_ids t ++ d_removed_ids d)
          (removal_details t ++ [d]).
Proof.
  intros Hlen Hnd Hrows.
  destruct (dry_run_report today (clocks (total_kept t + errors t)%nat) g Hlen)
    as (r & g' & Hsel & Hr & Hp & Hrep).
  assert (Hnd' : NoDup (id <$> g')) by (rewrite Hp; exact Hnd).
  assert (Hr' : r ∈ g') by (rewrite Hp; exact Hr).
  pose proof (kept_and_removed_ids g' r Hnd' Hr') as Hperm.
  set (removed := id <$> filter (λ e, id e ≠ id r) g') in *.
  assert (Hcount : (length removed + 1 = length g)%nat).
  { apply Permutation_length in Hperm. simpl in Hperm.
    rewrite length_fmap, Hp in Hperm. lia. }
  exists (mkDetail key.1 key.2 (id r) removed (length removed)).
  split; [|split; [exact Hcount|]].
  - split; [|split; [|reflexivity]]; simpl.
    + intros i Hi.
      assert (Hin : i ∈ id <$> g).
      { rewrite <- Hp, <- Hperm. destruct Hi as [->|Hi]; [left | by right]. }
      apply list_elem_of_fmap in Hin as (e & -> & He).
      destruct (Hrows e He) as (row & Hrow & <- & <-).
      exists row. auto.
    + intros Hin. apply list_elem_of_fmap in Hin as (e & Heq & He).
      apply list_elem_of_filter in He as [Hne _]. congruence.
  - unfold tally_group. rewrite Hrep. cbn [removed_ids removed_count kept_id status_updated].
    fold removed.
    rewrite bool_decide_eq_false_2;
      [|intros Heq; rewrite Heq in Hcount; simpl in Hcount; lia].
    cbn [negb d_removed_ids]. cbv iota.
    replace (length removed)
      with (length (filter (λ e, id e ≠ id r) g'))
      by (unfold removed; by rewrite length_fmap).
    reflexivity.
Qed.

Lemma tally_groups_good today clocks rows key gs t :
  (∀ g, g ∈ gs →
     (2 ≤ length g)%nat ∧ NoDup (id <$> g)
     ∧ ∀ e, e ∈ g → ∃ r, r ∈ rows ∧ enrollment r = e ∧ row_key r = key) →
  ∃ ds,
    Forall (detail_ok rows) ds
    ∧ (length (concat (d_removed_ids <$> ds)) + length gs
       = length (concat gs))%nat
    ∧ foldl (tally_group today clocks key) t gs
      = mkTally (groups_with_multiple t) (groups_with_overlaps t)
          (groups_with_no_overlaps t) (total_duplicate_groups t)
          (enrollments_in_groups_with_multiple t)
          (total_removed t + length (concat (d_removed_ids <$> ds)))
          (total_kept t + length gs)
          (groups_with_removals t) (clients_status_updated t) (errors t)
          (all_removed_ids t ++ concat (d_removed_ids <$> ds))
          (removal_details t ++ ds).
Proof.
  revert t. induction gs as [|g gs IH]; intros t Hgood.
  - exists []. split; [constructor|]. split; [reflexivity|]. simpl.
    rewrite !Nat.add_0_r, !app_nil_r. by destruct t.
  - destruct (Hgood g ltac:(left)) as (Hlen & Hnd & Hrows).
    destruct (tally_group_good today clocks rows key t g Hlen Hnd Hrows)
      as (d & Hd & Hcount & Hstep).
    destruct (IH (tally_group today clocks key t g)) as (ds & Hds & Hsum & Hrun).
    { intros g' Hg'. apply Hgood. by right. }
    exists (d :: ds). split; [by constructor|]. split.
    + rewrite fmap_cons. cbn [concat length]. rewrite !length_app. lia.
    + cbn [foldl]. rewrite Hrun, Hstep. rewrite fmap_cons.
      cbn [concat total_removed total_kept all_removed_ids removal_details
           groups_with_multiple groups_with_overlaps groups_with_no_overlaps
           total_duplicate_groups enrollments_in_groups_with_multiple
           groups_with_removals clients_status_updated errors length].
      rewrite !length_app, <- !app_assoc. cbn [app].
      f_equal; lia.
Qed.

(** One key of the dictionary: if the clusterer returns, the tally stays
    consistent. *)
Lemma tally_key_ok today clocks rows key es t t' :
  NoDup (id <$> es) →
  (∀ e, e ∈ es → ∃ r, r ∈ rows ∧ enrollment r = e ∧ row_key r = key) →
  tally_ok rows t →
  tally_key today clocks (key, es) t = Ok t' →
  tally_ok rows t'
  ∧ (enrollments_in_groups_with_multiple t'
     ≤ enrollments_in_groups_with_multiple t + length es)%nat.
Proof.
  intros Hids Hrows (He & Hcs & Hk & Hr & Hm & Hw & Hle & Hall & Hdet).
  unfold tally_key.
  destruct (Nat.leb_spec (length es) 1) as [Hshort|Hlong].
  { intros H. injection H as <-. split; [|lia]. repeat split; assumption. }
  destruct (find_overlapping_groups today es) as [groups| |] eqn:Hfind; simpl;
    try discriminate.
  destruct (cluster_facts today es groups Hids Hfind) as (Hnd & Hfacts & _).
  destruct groups as [|g0 gs0].
  { intros H. injection H as <-. simpl. split; [|lia].
    repeat split; simpl; try assumption; lia. }
  remember (g0 :: gs0) as groups eqn:Hgroups.
  set (t2 := mkTally _ _ _ _ _ _ _ _ _ _ _ _).
  destruct (tally_groups_good today clocks rows key groups t2)
    as (ds & Hds & Hsum & Hrun).
  { intros g Hg. destruct (Hfacts g Hg) as (_ & Hlen & Hin).
    split; [exact Hlen|]. split; [|intros e Hege; apply Hrows, Hin, Hege].
    apply NoDup_fmap_2_strong.
    - intros x y Hx Hy. apply (NoDup_ids_inj es); auto.
    - apply (NoDup_concat_member groups); assumption. }
  assert (Hsize : (length (concat groups) ≤ length es)%nat).
  { apply submseteq_length, NoDup_submseteq; [exact Hnd|].
    intros x Hx. apply elem_of_concat in Hx as (g & Hxg & Hg).
    destruct (Hfacts g Hg) as (_ & _ & Hin). auto. }
  intros H. injection H as <-.
  rewrite Hrun. subst t2. simpl. split; [|lia].
  repeat split; simpl; try assumption; try lia.
  - rewrite length_app. lia.
  - rewrite fmap_app, concat_app. by rewrite Hall.
  - apply Forall_app. split; assumption.
Qed.

Lemma tally_key_returns today clocks key es t :
  comparable es → ∃ t', tally_key today clocks (key, es) t = Ok t'.
Proof.
  intros Hc. unfold tally_key. destruct (length es <=? 1)%nat; [eauto|].
  destruct (find_overlapping_groups_returns today es Hc) as [groups ->]. simpl.
  destruct groups; eauto.
Qed.

(** If a dry run over a table with distinct record ids runs to the end, its
    tally is consistent. *)
Lemma handle_dry_run_ok today clocks client program table s :
  NoDup ((λ r, id (enrollment r)) <$> table) →
  handle_dry_run today clocks client program table = Ok s →
  total_enrollments s = length (enrollments_query client program table)
  ∧ tally_ok (enrollments_query client program table) (counts s)
  ∧ (enrollments_in_groups_with_multiple (counts s)
     ≤ length (enrollments_query client program table))%nat.
Proof.
  intros Hids. unfold handle_dry_run.
  set (rows := enrollments_query client program table).
  assert (Hids' : NoDup ((λ r, id (enrollment r)) <$> rows))
    by (apply NoDup_fmap_filter, Hids).
  destruct (group_by_key_spec rows) as (_ & Hent & _ & Hcat).
  destruct (for_each (tally_key today clocks) (group_by_key rows) tally0)
    as [t| |] eqn:Hrun; simpl; try discriminate.
  intros H. injection H as <-. simpl. split; [reflexivity|].
  pose proof (for_each_sound (tally_key today clocks)
    (λ pre t, tally_ok rows t
              ∧ (enrollments_in_groups_with_multiple t
                 ≤ length (concat pre.*2))%nat)
    (group_by_key rows) tally0 t) as Hinv.
  destruct Hinv as [Hok Hle]; [| |exact Hrun|].
  - split; [|simpl; lia]. repeat split; simpl; try lia; constructor.
  - intros pre [key es] post t1 t2 Heq [Hok Hle] Hstep.
    assert (Hin : (key, es) ∈ group_by_key rows) by (rewrite Heq; set_solver).
    destruct (Hent key es Hin) as [_ Hes].
    destruct (tally_key_ok today clocks rows key es t1 t2) as (Hok' & Hle');
      [| |exact Hok|exact Hstep|].
    + rewrite Hes, <- list_fmap_compose. apply NoDup_fmap_filter, Hids'.
    + intros e He. rewrite Hes in He.
      apply list_elem_of_fmap in He as (r & -> & Hr).
      apply list_elem_of_filter in Hr as [Hk Hr]. eauto.
    + split; [exact Hok'|].
      rewrite fmap_app, concat_app, length_app. simpl.
      rewrite app_nil_r. lia.
  - split; [exact Hok|]. rewrite Hcat, length_fmap in Hle. exact Hle.
Qed.

(** A dry run over a table whose records have start dates, none ending on
    the last date, runs to the end. *)
Lemma handle_dry_run_returns today clocks client program table :
  comparable (enrollment <$> table) →
  ∃ s, handle_dry_run today clocks client program table = Ok s.
Proof.
  intros [Hd Hb]. unfold handle_dry_run.
  set (rows := enrollments_query client program table).
  destruct (group_by_key_spec rows) as (_ & Hent & _ & _).
  destruct (for_each_returns (tally_key today clocks) (group_by_key rows) tally0)
    as [t ->]; [|simpl; eauto].
  intros [key es] t Hin. apply tally_key_returns.
  destruct (Hent key es Hin) as [_ ->].
  rewrite Forall_fmap in Hd, Hb.
  split; apply Forall_fmap, Forall_filter_keeps, Forall_filter_keeps;
    assumption.
Qed.

(** X23. In a dry run over a table with distinct record ids, when the
    driver runs to the end, every entry of the removal details stays
    within one client and program: its kept id and its removed ids are ids
    of non-archived rows of the table with the entry's client and program
    that pass the [--client-id] and [--program-id] filters; the kept id is
    not among the removed ids.  The driver runs to the end when every
    record of the table has a start date and none ends on the last
    date. *)
Theorem dry_run_stays_within_key today clocks client program
    (table : list Row) :
  NoDup ((λ r, id (enrollment r)) <$> table) →
  (∀ s,
     handle_dry_run today clocks client program table = Ok s →
     ∀ d, d ∈ removal_details (counts s) →
       (d_kept_id d ∉ d_removed_ids d)
       ∧ ∀ i, i = d_kept_id d ∨ i ∈ d_removed_ids d →
           ∃ r, r ∈ table ∧ id (enrollment r) = i
                ∧ client_id r = d_client_id d
                ∧ program_id r = d_program_id d
                ∧ is_archived (enrollment r) = false
                ∧ filter_on client (client_id r)
                ∧ filter_on program (program_id r))
  ∧ (comparable (enrollment <$> table) →
     ∃ s, handle_dry_run today clocks client program table = Ok s).
Proof.
  intros Hids. split; [|apply handle_dry_run_returns].
  intros s Hrun.
  destruct (handle_dry_run_ok today clocks client program table s Hids Hrun)
    as (_ & Hok & _).
  destruct Hok as (_ & _ & _ & _ & _ & _ & _ & _ & Hdet).
  rewrite Forall_forall in Hdet. intros d Hdin.
  destruct (Hdet d Hdin) as (Hscope & Hkept & _).
  split; [exact Hkept|]. intros i Hi.
  destruct (Hscope i Hi) as (r & Hr & Hid & Hc & Hp).
  unfold enrollments_query in Hr.
  apply list_elem_of_filter in Hr as [(Ha & Hfc & Hfp) Hr].
  exists r. auto 10.
Qed.

Lemma dry_run_stays_within_key_witness :
  (∀ s,
     handle_dry_run 0 (λ _ _, 0) None (Some 5) sample_table = Ok s →
     ∀ d, d ∈ removal_details (counts s) →
       (d_kept_id d ∉ d_removed_ids d)
       ∧ ∀ i, i = d_kept_id d ∨ i ∈ d_removed_ids d →
           ∃ r, r ∈ sample_table ∧ id (enrollment r) = i
                ∧ client_id r = d_client_id d
                ∧ program_id r = d_program_id d
                ∧ is_archived (enrollment r) = false
                ∧ filter_on None (client_id r)
                ∧ filter_on (Some 5) (program_id r))
  ∧ (comparable (enrollment <$> sample_table) →
     ∃ s, handle_dry_run 0 (λ _ _, 0) None (Some 5) sample_table = Ok s).
Proof.
  apply (dry_run_stays_within_key 0 (λ _ _, 0) None (Some 5) sample_table).
  apply (bool_decide_unpack _). vm_compute. exact I.
Defined.

(** X24. The summary of a dry run over a table with distinct record ids
    adds up, when the driver runs to the end: no group fails, one record is
    kept per overlapping group, the removed ids are as many as
    [total_removed] says, every key with several records is counted either
    as overlapping or as not overlapping, and kept plus removed records
    are no more than the records read.  The driver runs to the end when
    every record of the table has a start date and none ends on the last
    date. *)
Theorem dry_run_summary_adds_up today clocks client program
    (table : list Row) :
  NoDup ((λ r, id (enrollment r)) <$> table) →
  (∀ s,
     handle_dry_run today clocks client program table = Ok s →
     errors (counts s) = 0%nat
     ∧ total_kept (counts s) = total_duplicate_groups (counts s)
     ∧ total_removed (counts s) = length (all_removed_ids (counts s))
     ∧ groups_with_multiple (counts s)
       = (groups_with_overlaps (counts s)
          + groups_with_no_overlaps (counts s))%nat
     ∧ groups_with_removals (counts s) = groups_with_overlaps (counts s)
     ∧ (total_removed (counts s) + total_kept (counts s)
        ≤ total_enrollments s)%nat
     ∧ (total_enrollments s ≤ length table)%nat)
  ∧ (comparable (enrollment <$> table) →
     ∃ s, handle_dry_run today clocks client program table = Ok s).
Proof.
  intros Hids. split; [|apply handle_dry_run_returns].
  intros s Hrun.
  destruct (handle_dry_run_ok today clocks client program table s Hids Hrun)
    as (Htotal & Hok & Hle).
  destruct Hok as (He & _ & Hk & Hr & Hm & Hw & Hsum & _).
  rewrite Htotal.
  repeat split; try assumption; try lia.
  apply length_filter.
Qed.

Lemma dry_run_summary_adds_up_witness :
  (∀ s,
     handle_dry_run 0 (λ _ _, 0) None None sample_table = Ok s →
     errors (counts s) = 0%nat
     ∧ total_kept (counts s) = total_duplicate_groups (counts s)
     ∧ total_removed (counts s) = length (all_removed_ids (counts s))
     ∧ groups_with_multiple (counts s)
       = (groups_with_overlaps (counts s)
          + groups_with_no_overlaps (counts s))%nat
     ∧ groups_with_removals (counts s) = groups_with_overlaps (counts s)
     ∧ (total_removed (counts s) + total_kept (counts s)
        ≤ total_enrollments s)%nat
     ∧ (total_enrollments s ≤ length sample_table)%nat)
  ∧ (comparable (enrollment <$> sample_table) →
     ∃ s, handle_dry_run 0 (λ _ _, 0) None None sample_table = Ok s).
Proof.
  apply (dry_run_summary_adds_up 0 (λ _ _, 0) None None sample_table).
  apply (bool_decide_unpack _). vm_compute. exact I.
Defined.
